(** * ProcessSchedulingSim: a shallow embedding of the scheduling engine

    The development follows [src/process.py] and [src/scheduler.py].

    - Python integers are unbounded, hence [Z].
    - A [Process] object is a record; the scheduler keeps references to
      process objects in its three queues, so the embedding keeps a store
      ([heap]) from references to records and lists of references for the
      queues.  A method that mutates [self] updates the store at one
      reference; every alias of that reference observes the update.
    - A failing [assert] and an index out of range abort the computation;
      they are modelled in an error monad.
    - Listeners only observe (they print); they are left out.  The ghost
      field [trace] records, in program order, the mutations a step
      performs, so that statements about their order can be expressed. *)

From Stdlib Require Import ZArith QArith String DecimalString DecimalZ List Lia.
From stdpp Require Import base tactics option list sorting.

Local Open Scope string_scope.
Local Open Scope Z_scope.
Local Open Scope list_scope.

(** ** Exceptions *)

Inductive Error : Type :=
| AssertionError (msg : string)
| IndexError
| ZeroDivisionError
| OutOfFuel.        (* not a Python exception: the loop bound of [run_loop] *)

Inductive Result (A : Type) : Type :=
| Ok (a : A)
| Err (e : Error).
Arguments Ok {A} a.
Arguments Err {A} e.

#[global] Instance Result_ret : MRet Result := fun A a => Ok a.
#[global] Instance Result_bind : MBind Result := fun A B k m =>
  match m with
  | Ok a => k a
  | Err e => Err e
  end.

(** [assert cond, msg] *)
Definition py_assert (cond : bool) (msg : string) : Result unit :=
  if cond then Ok tt else Err (AssertionError msg).

(** ** process.py *)

Module Process.

Record t : Type := mk {
  pid : string;            (* self.__id *)
  ex_time : Z;             (* self.__ex_time *)
  arrival_time : Z;        (* self.__arrival_time *)
  processed_time : Z;      (* self.__processed_time *)
  comp_time : Z;           (* self.__comp_time *)
  wait_time : Z            (* self.__wait_time *)
}.

(** [Process.__init__] *)
Definition init (id : string) (ex : Z) (arrival : Z) : t :=
  mk id ex arrival 0 0 0.

(** property [time_left] *)
Definition time_left (p : t) : Z := ex_time p - processed_time p.

(** property [is_done] *)
Definition is_done (p : t) : bool := processed_time p >=? ex_time p.

(** [Process.run]: the mutated object and [(time_ran, time_leftover)] *)
Definition run (p : t) (running_time : Z) : Result (t * (Z * Z)) :=
  _ ← py_assert (running_time >? 0) "Process running_time must be > 0";
  let time_ran := Z.min (time_left p) running_time in
  let time_leftover := running_time - time_ran in
  Ok (mk (pid p) (ex_time p) (arrival_time p)
         (processed_time p + time_ran)
         (comp_time p + time_ran)
         (wait_time p),
      (time_ran, time_leftover)).

(** [Process.wait] *)
Definition wait (p : t) (waiting_time : Z) : Result t :=
  _ ← py_assert (waiting_time >=? 0) "Cannot wait for negative time";
  Ok (mk (pid p) (ex_time p) (arrival_time p) (processed_time p)
         (comp_time p + waiting_time)
         (wait_time p + waiting_time)).

(** the setter of [arrival_time] *)
Definition set_arrival_time (p : t) (value : Z) : t :=
  mk (pid p) (ex_time p) value (processed_time p) (comp_time p) (wait_time p).

(** [Process.wait_arrival]: the mutated object and the returned flag *)
Definition wait_arrival (p : t) (waiting_time : Z) : Result (t * bool) :=
  _ ← py_assert (waiting_time >=? 0) "Cannot wait for negative time";
  let arrival_wait_time := Z.min (arrival_time p) waiting_time in
  let p := set_arrival_time p (arrival_time p - arrival_wait_time) in
  let waiting_time := waiting_time - arrival_wait_time in
  p ← wait p waiting_time;
  Ok (p, arrival_time p =? 0).

(** property [completion_time] *)
Definition completion_time (p : t) : Result Z :=
  _ ← py_assert (is_done p) "cannot get completion time for ongoing process";
  Ok (comp_time p).

(** [Process.__lt__] *)
Definition lt (self other : t) : bool :=
  if arrival_time self =? arrival_time other
  then ex_time self <? ex_time other
  else arrival_time self <? arrival_time other.

(** The objects the three mutating methods leave behind when their
    assertions hold (used to state what the loops of a step compute). *)
Definition ran (p : t) (running_time : Z) : t :=
  mk (pid p) (ex_time p) (arrival_time p)
     (processed_time p + Z.min (time_left p) running_time)
     (comp_time p + Z.min (time_left p) running_time)
     (wait_time p).

Definition waited (p : t) (d : Z) : t :=
  mk (pid p) (ex_time p) (arrival_time p) (processed_time p)
     (comp_time p + d) (wait_time p + d).

Definition arrived (p : t) (d : Z) : t :=
  mk (pid p) (ex_time p)
     (arrival_time p - Z.min (arrival_time p) d)
     (processed_time p)
     (comp_time p + (d - Z.min (arrival_time p) d))
     (wait_time p + (d - Z.min (arrival_time p) d)).

End Process.

(** ** The object store *)

Definition ref : Type := nat.

(** Every reference denotes an object; the references a scheduler never
    allocated are mentioned by none of its queues. *)
Definition Heap : Type := ref -> Process.t.

Definition heap_set (h : Heap) (r : ref) (p : Process.t) : Heap :=
  fun r' => if Nat.eqb r' r then p else h r'.

(** [copy.deepcopy] of the i-th element of the argument list gives
    object i. *)
Definition heap_of_list (l : list Process.t) : Heap :=
  fun r => nth r l (Process.init "" 0 0).

(** References compared as their objects are by [Process.__lt__]. *)
Definition ref_lt (h : Heap) (x y : ref) : bool := Process.lt (h x) (h y).

(** ** Library routines used by scheduler.py *)

(** [list.sort()] uses [<] only and is stable.  For an order such as
    [__lt__] (lexicographic on two integers) the stable sorted arrangement
    is unique; it is computed here by insertion from the right. *)
Fixpoint sort_insert (lt : ref -> ref -> bool) (x : ref) (l : list ref) : list ref :=
  match l with
  | [] => [x]
  | y :: l' => if lt y x then y :: sort_insert lt x l' else x :: l
  end.

Fixpoint list_sort (lt : ref -> ref -> bool) (l : list ref) : list ref :=
  match l with
  | [] => []
  | x :: l' => sort_insert lt x (list_sort lt l')
  end.

(** [bisect.bisect_right(a, x)]:
<<
    lo, hi = 0, len(a)
    while lo < hi:
        mid = (lo + hi) // 2
        if x < a[mid]: hi = mid
        else: lo = mid + 1
    return lo
>>
    [hi - lo] decreases in every iteration, so [len(a)] iterations are
    enough. *)
Fixpoint bisect_loop (fuel : nat) (x_lt : ref -> bool) (a : list ref)
    (lo hi : nat) : nat :=
  match fuel with
  | O => lo
  | S fuel' =>
      if (lo <? hi)%nat then
        let mid := ((lo + hi) / 2)%nat in
        match a !! mid with
        | Some y =>
            if x_lt y then bisect_loop fuel' x_lt a lo mid
            else bisect_loop fuel' x_lt a (mid + 1)%nat hi
        | None => lo
        end
      else lo
  end.

Definition bisect_right (lt : ref -> ref -> bool) (a : list ref) (x : ref) : nat :=
  bisect_loop (length a) (lt x) a 0%nat (length a).

(** [list.insert(i, x)] *)
Definition list_insert_at (a : list ref) (i : nat) (x : ref) : list ref :=
  take i a ++ x :: drop i a.

(** [bisect.insort(a, x)] *)
Definition insort (lt : ref -> ref -> bool) (a : list ref) (x : ref) : list ref :=
  list_insert_at a (bisect_right lt a x) x.

(** ** scheduler.py *)

(** The four subclasses of [Scheduler]; [RoundRobinScheduler] carries its
    [time_slice]. *)
Inductive Policy : Type :=
| FIFO
| SJF
| RoundRobin (time_slice : Z)
| SRTF.

(** The two versions of [add_runnable]: [self.runnable.append(process)] in
    the FIFO and Round-Robin classes, [bisect.insort(self.runnable, process)]
    in the SJF and SRTF classes; [h] holds the objects that [insort]
    compares. *)
Definition add_to (pol : Policy) (h : Heap) (a : list ref) (x : ref) : list ref :=
  match pol with
  | FIFO | RoundRobin _ => a ++ [x]
  | SJF | SRTF => insort (ref_lt h) a x
  end.

(** Ghost events, one per mutation of a process or of the clock. *)
Inductive Event : Type :=
| EvStall (r : ref) (stall_time : Z)      (* get_next_process: self.time += stall_time *)
| EvRun (r : ref) (time_ran : Z)          (* self._curr_process.run(ex_time) *)
| EvWait (r : ref) (waiting_time : Z)     (* process.wait(self.step_time_ran) *)
| EvWaitArrival (r : ref) (waiting_time : Z) (arrived : bool)
                                          (* process.wait_arrival(self.step_time_ran) *)
| EvDone (r : ref)                        (* self._on_process_done() *)
| EvRequeue (r : ref)                     (* self.add_runnable(self.curr_process) *)
| EvClock (step_time_ran : Z).            (* self.time += self.step_time_ran *)

Module Scheduler.

Record t : Type := mk {
  policy : Policy;                 (* the class of the object *)
  heap : Heap;                     (* the process objects *)
  done_processes : list ref;       (* self._done_processes *)
  runnable : list ref;             (* self._runnable *)
  waiting : list ref;              (* self._waiting *)
  time : Z;                        (* self._time *)
  curr_process : option ref;       (* self._curr_process *)
  step_time_ran : Z;               (* self._step_time_ran *)
  trace : list Event               (* ghost *)
}.

Definition set_heap (s : t) (h : Heap) : t :=
  mk (policy s) h (done_processes s) (runnable s) (waiting s) (time s)
     (curr_process s) (step_time_ran s) (trace s).
Definition set_done_processes (s : t) (l : list ref) : t :=
  mk (policy s) (heap s) l (runnable s) (waiting s) (time s)
     (curr_process s) (step_time_ran s) (trace s).
Definition set_runnable (s : t) (l : list ref) : t :=
  mk (policy s) (heap s) (done_processes s) l (waiting s) (time s)
     (curr_process s) (step_time_ran s) (trace s).
Definition set_waiting (s : t) (l : list ref) : t :=
  mk (policy s) (heap s) (done_processes s) (runnable s) l (time s)
     (curr_process s) (step_time_ran s) (trace s).
Definition set_time (s : t) (v : Z) : t :=
  mk (policy s) (heap s) (done_processes s) (runnable s) (waiting s) v
     (curr_process s) (step_time_ran s) (trace s).
Definition set_curr_process (s : t) (r : ref) : t :=
  mk (policy s) (heap s) (done_processes s) (runnable s) (waiting s) (time s)
     (Some r) (step_time_ran s) (trace s).
Definition set_step_time_ran (s : t) (v : Z) : t :=
  mk (policy s) (heap s) (done_processes s) (runnable s) (waiting s) (time s)
     (curr_process s) v (trace s).
Definition log (e : Event) (s : t) : t :=
  mk (policy s) (heap s) (done_processes s) (runnable s) (waiting s) (time s)
     (curr_process s) (step_time_ran s) (trace s ++ [e]).

(** [Scheduler.__init__], followed by what the subclass constructors add:
    the assertion on [time_slice] (Round-Robin, before the call of the base
    constructor) and [self.runnable.sort()] (SJF and SRTF, after it). *)
Definition init (pol : Policy) (processes : list Process.t) : Result t :=
  _ ← match pol with
      | RoundRobin time_slice =>
          py_assert (time_slice >? 0) "Round Robin time slice must be positive"
      | _ => Ok tt
      end;
  let h := heap_of_list processes in
  let refs := seq 0 (length processes) in
  let _runnable := filter (fun r => Process.arrival_time (h r) <= 0) refs in
  let _waiting := filter (fun r => ~ Process.arrival_time (h r) <= 0) refs in
  let _waiting := list_sort (ref_lt h) _waiting in
  let _runnable :=
    match pol with
    | SJF | SRTF => list_sort (ref_lt h) _runnable
    | _ => _runnable
    end in
  Ok (mk pol h [] _runnable _waiting 0 None 0 []).

(** property [is_done] *)
Definition is_done (s : t) : bool :=
  (length (runnable s) =? 0)%nat && (length (waiting s) =? 0)%nat.

(** [add_runnable], as overridden by the class of [s] *)
Definition add_runnable (process : ref) (s : t) : t :=
  set_runnable s (add_to (policy s) (heap s) (runnable s) process).

(** [Scheduler.get_next_process] (the base-class part: the stall) *)
Definition base_get_next_process (s : t) : t :=
  if (length (runnable s) =? 0)%nat && (0 <? length (waiting s))%nat then
    match waiting s with
    | next_process :: _ =>
        let s := set_waiting s (drop 1 (waiting s)) in
        let stall_time := Process.arrival_time (heap s next_process) in
        let s := set_heap s (heap_set (heap s) next_process
                   (Process.set_arrival_time (heap s next_process) 0)) in
        let s := log (EvStall next_process stall_time)
                   (set_time s (time s + stall_time)) in
        add_runnable next_process s
    | [] => s
    end
  else s.

(** [get_next_process] of the four subclasses (the same text in each) *)
Definition get_next_process (s : t) : Result (ref * t) :=
  let s := base_get_next_process s in
  match runnable s with
  | curr_process :: _ => Ok (curr_process, set_runnable s (drop 1 (runnable s)))
  | [] => Err IndexError
  end.

(** [self._step_time_ran, time_leftover = self._curr_process.run(ex_time)] *)
Definition run_curr (c : ref) (ex_time : Z) (s : t) : Result (Z * t) :=
  '(p, (time_ran, time_leftover)) ← Process.run (heap s c) ex_time;
  Ok (time_leftover,
      log (EvRun c time_ran)
        (set_step_time_ran (set_heap s (heap_set (heap s) c p)) time_ran)).

(** [_on_process_done] *)
Definition on_process_done (c : ref) (s : t) : t :=
  log (EvDone c) (set_done_processes s (done_processes s ++ [c])).

(** [self.time += self.step_time_ran] *)
Definition advance_time (s : t) : t :=
  log (EvClock (step_time_ran s)) (set_time s (time s + step_time_ran s)).

(** [for process in self.runnable: process.wait(self.step_time_ran)]:
    the body, and the loop running over the list [rs] *)
Definition wait_body (process : ref) (s : t) : Result t :=
  p ← Process.wait (heap s process) (step_time_ran s);
  Ok (log (EvWait process (step_time_ran s))
        (set_heap s (heap_set (heap s) process p))).

Fixpoint wait_loop (rs : list ref) (s : t) : Result t :=
  match rs with
  | [] => Ok s
  | process :: rs' => s ← wait_body process s; wait_loop rs' s
  end.

(** The loop over the waiting processes,
<<
    for process in self.waiting:
        if process.wait_arrival(self.step_time_ran):
            self.add_runnable(process)
            self._waiting = self._waiting[1:]
>>
    The iteration runs over the list object that [self.waiting] denoted
    when the loop started ([ws]); the assignment in its body binds
    [self._waiting] to a new list and does not disturb the iteration. *)
Definition arrival_body (process : ref) (s : t) : Result t :=
  '(p, arrived) ← Process.wait_arrival (heap s process) (step_time_ran s);
  let s := log (EvWaitArrival process (step_time_ran s) arrived)
             (set_heap s (heap_set (heap s) process p)) in
  if arrived
  then let s := add_runnable process s in
       Ok (set_waiting s (drop 1 (waiting s)))
  else Ok s.

Fixpoint arrival_loop (ws : list ref) (s : t) : Result t :=
  match ws with
  | [] => Ok s
  | process :: ws' => s ← arrival_body process s; arrival_loop ws' s
  end.

(** The two loops, one after the other (the same text in the four [step]
    methods) *)
Definition loops (s : t) : Result t :=
  s ← wait_loop (runnable s) s;
  arrival_loop (waiting s) s.

(** [FIFOScheduler.step] and [SJFScheduler.step] (the same text) *)
Definition step_run_to_completion (msg : string) (s : t) : Result t :=
  '(c, s) ← get_next_process s;
  let s := set_curr_process s c in
  let ex_time := Process.ex_time (heap s c) in
  '(time_leftover, s) ← run_curr c ex_time s;
  _ ← py_assert (time_leftover =? 0) msg;
  let s := on_process_done c s in
  let s := advance_time s in
  loops s.

Definition FIFO_step : t -> Result t :=
  step_run_to_completion "FIFO Should not interrupt running processes".

Definition SJF_step : t -> Result t :=
  step_run_to_completion "SJF Should not interrupt running processes".

(** [if self.curr_process.is_done: self._on_process_done()]
    [else: self.add_runnable(self.curr_process)] *)
Definition finish_or_requeue (c : ref) (s : t) : t :=
  if Process.is_done (heap s c)
  then on_process_done c s
  else log (EvRequeue c) (add_runnable c s).

(** The common end of [RoundRobinScheduler.step] and [SRTFScheduler.step],
    from the first loop on *)
Definition step_preemptive_end (c : ref) (s : t) : Result t :=
  s ← loops s;
  let s := finish_or_requeue c s in
  Ok (advance_time s).

(** [RoundRobinScheduler.step] *)
Definition RoundRobin_step (time_slice : Z) (s : t) : Result t :=
  '(c, s) ← get_next_process s;
  let s := set_curr_process s c in
  let ex_time := time_slice in
  '(_, s) ← run_curr c ex_time s;
  step_preemptive_end c s.

(** The quantum [SRTFScheduler.step] asks for, [c] being the current
    process *)
Definition SRTF_ex_time (c : ref) (s : t) : Z :=
  let ex_time := Process.time_left (heap s c) in
  if (0 <? length (waiting s))%nat then
    match waiting s with
    | first_waiting :: _ =>
        let wait_comp_time :=
          Process.arrival_time (heap s first_waiting)
          + Process.time_left (heap s first_waiting) in
        if ex_time >? wait_comp_time
        then Process.arrival_time (heap s first_waiting)
        else Process.time_left (heap s c)
    | [] => ex_time
    end
  else ex_time.

(** [SRTFScheduler.step] *)
Definition SRTF_step (s : t) : Result t :=
  '(c, s) ← get_next_process s;
  let s := set_curr_process s c in
  let ex_time := SRTF_ex_time c s in
  '(_, s) ← run_curr c ex_time s;
  step_preemptive_end c s.

(** [self.step()], dispatched on the class of [self] *)
Definition step (s : t) : Result t :=
  match policy s with
  | FIFO => FIFO_step s
  | SJF => SJF_step s
  | RoundRobin time_slice => RoundRobin_step time_slice s
  | SRTF => SRTF_step s
  end.

(** [while not self.is_done: self.step()], at most [fuel] iterations *)
Fixpoint run_loop (fuel : nat) (s : t) : Result t :=
  if is_done s then Ok s
  else match fuel with
       | O => Err OutOfFuel
       | S fuel' => s ← step s; run_loop fuel' s
       end.

(** The statistics record; a Python [float] obtained by the true division
    of two integers is represented by the exact quotient. *)
Record Stats : Type := mkStats {
  avg_comp_time : Q;
  avg_wait_time : Q;
  num_processes_ran : Z
}.

(** The accumulation loop of [run]: the three sums *)
Fixpoint sum_stats (h : Heap) (done : list ref) (acc : Z * Z * Z)
    : Result (Z * Z * Z) :=
  match done with
  | [] => Ok acc
  | process :: done' =>
      let '(c, w, n) := acc in
      ct ← Process.completion_time (h process);
      sum_stats h done' (c + ct, w + Process.wait_time (h process), n + 1)
  end.

(** [x /= n] *)
Definition true_div (x n : Z) : Result Q :=
  if n =? 0 then Err ZeroDivisionError
  else Ok (Qmake x 1 / Qmake n 1)%Q.

(** [Scheduler.run] *)
Definition run (fuel : nat) (s : t) : Result (t * Stats) :=
  s ← run_loop fuel s;
  '(c, w, n) ← sum_stats (heap s) (done_processes s) (0, 0, 0);
  avg_c ← true_div c n;
  avg_w ← true_div w n;
  Ok (s, mkStats avg_c avg_w n).

End Scheduler.

(** ** The inputs of the claims *)

(** A process description, as read from the input file: id, execution time,
    arrival time. *)
Definition Spec : Type := (string * Z * Z)%type.

Definition process_of_spec (d : Spec) : Process.t :=
  let '(id, ex, arrival) := d in Process.init id ex arrival.

(** A freshly constructed scheduler of class [pol] for the given input. *)
Definition fresh (pol : Policy) (input : list Spec) : Result Scheduler.t :=
  Scheduler.init pol (map process_of_spec input).

(** The states a scheduler of class [pol] goes through from construction,
    one [step] after the other. *)
Inductive reachable (pol : Policy) (input : list Spec) : Scheduler.t -> Prop :=
| reachable_init s :
    fresh pol input = Ok s -> reachable pol input s
| reachable_step s s' :
    reachable pol input s -> Scheduler.step s = Ok s' -> reachable pol input s'.

(** [s'] is [s] after some number of steps. *)
Inductive steps : Scheduler.t -> Scheduler.t -> Prop :=
| steps_refl s : steps s s
| steps_step s s' s'' :
    steps s s' -> Scheduler.step s' = Ok s'' -> steps s s''.

(** The scenario of the specification: P1:5:0, P2:3:0, P3:8:0. *)
Definition scenario : list Spec := [("P1", 5, 0); ("P2", 3, 0); ("P3", 8, 0)].

(** What an observer reads off a finished process: id, [completion_time],
    [wait_time]. *)
Definition report (s : Scheduler.t) : list (string * Result Z * Z) :=
  map (fun r => let p := Scheduler.heap s r in
                (Process.pid p, Process.completion_time p, Process.wait_time p))
      (Scheduler.done_processes s).

(** The [run] events of a trace, in order: who ran, and for how long. *)
Definition runs_of (tr : list Event) : list (ref * Z) :=
  flat_map (fun e => match e with EvRun r q => [(r, q)] | _ => [] end) tr.

(** ** Notions used to state the properties *)

(** [x] is not after [y] in the order of [Process.__lt__]: [not (y < x)]. *)
Definition ref_le (h : Heap) (x y : ref) : Prop := ref_lt h y x = false.

(** [x] does not arrive after [y]. *)
Definition arrival_le (h : Heap) (x y : ref) : Prop :=
  Process.arrival_time (h x) <= Process.arrival_time (h y).

(** Apply [f] to the objects of [rs], one after the other. *)
Fixpoint heap_update_all (f : Process.t -> Process.t) (rs : list ref) (h : Heap)
    : Heap :=
  match rs with
  | [] => h
  | r :: rs' => heap_update_all f rs' (heap_set h r (f (h r)))
  end.

(** [add_runnable] called for each of [xs] in turn. *)
Definition add_all (pol : Policy) (h : Heap) (a xs : list ref) : list ref :=
  fold_left (add_to pol h) xs a.

(** [r] arrives within a quantum [d]. *)
Definition arrives (h : Heap) (d : Z) (r : ref) : Prop :=
  Process.arrival_time (h r) <= d.

#[global] Instance arrives_dec h d r : Decision (arrives h d r).
Proof. unfold arrives. apply _. Defined.

(** The state the first loop of a step ends in, run over [rs] from [s]. *)
Definition wait_state (rs : list ref) (s : Scheduler.t) : Scheduler.t :=
  let d := Scheduler.step_time_ran s in
  Scheduler.mk (Scheduler.policy s)
    (heap_update_all (fun p => Process.waited p d) rs (Scheduler.heap s))
    (Scheduler.done_processes s) (Scheduler.runnable s) (Scheduler.waiting s)
    (Scheduler.time s) (Scheduler.curr_process s) d
    (Scheduler.trace s ++ map (fun r => EvWait r d) rs).

(** The state the second loop of a step ends in, run over [ws] from [s],
    when [ws] is in the order of arrival and the waiting queue of [s] is
    [pre ++ ws]. *)
Definition arrival_state (pre ws : list ref) (s : Scheduler.t) : Scheduler.t :=
  let d := Scheduler.step_time_ran s in
  let h := Scheduler.heap s in
  let h' := heap_update_all (fun p => Process.arrived p d) ws h in
  Scheduler.mk (Scheduler.policy s) h'
    (Scheduler.done_processes s)
    (add_all (Scheduler.policy s) h' (Scheduler.runnable s) (filter (arrives h d) ws))
    (pre ++ filter (fun r => ~ arrives h d r) ws)
    (Scheduler.time s) (Scheduler.curr_process s) d
    (Scheduler.trace s
       ++ map (fun r => EvWaitArrival r d (Process.arrival_time (h r) <=? d)) ws).

(** The state [run_curr c ex_time s] ends in when the assertion of [run]
    holds. *)
Definition ran_state (c : ref) (ex_time : Z) (s : Scheduler.t) : Scheduler.t :=
  let h := Scheduler.heap s in
  let q := Z.min (Process.time_left (h c)) ex_time in
  Scheduler.log (EvRun c q)
    (Scheduler.set_step_time_ran
       (Scheduler.set_heap s (heap_set h c (Process.ran (h c) ex_time))) q).

(** The state after the selection of [c], the head of the runnable queue
    [c :: rest] of [s0]. *)
Definition selected (c : ref) (rest : list ref) (s0 : Scheduler.t) : Scheduler.t :=
  Scheduler.set_curr_process (Scheduler.set_runnable s0 rest) c.

(** The two loops of a step, from [s]. *)
Definition loops_state (s : Scheduler.t) : Scheduler.t :=
  arrival_state [] (Scheduler.waiting s) (wait_state (Scheduler.runnable s) s).

(** ** The invariant of the scheduler

    [WFx pol input xs s]: what holds of a scheduler of class [pol] built from
    [input], the processes [xs] being out of the queues (the current process,
    between its selection and its requeueing or completion).  [WF] is what
    holds between two steps. *)
Record WFx (pol : Policy) (input : list Spec) (xs : list ref) (s : Scheduler.t)
    : Prop := mkWFx {
  wf_policy : Scheduler.policy s = pol;
  (* every process is in exactly one place *)
  wf_queues :
    xs ++ Scheduler.runnable s ++ Scheduler.waiting s ++ Scheduler.done_processes s
    ≡ₚ seq 0 (length input);
  (* id and execution time are those of the input *)
  wf_static : forall r,
    Process.pid (Scheduler.heap s r)
    = Process.pid (heap_of_list (map process_of_spec input) r)
    /\ Process.ex_time (Scheduler.heap s r)
       = Process.ex_time (heap_of_list (map process_of_spec input) r);
  (* the waiting queue: not arrived yet, in the order of arrival *)
  wf_waiting_pos :
    Forall (fun r => 0 < Process.arrival_time (Scheduler.heap s r))
      (Scheduler.waiting s);
  wf_waiting_sorted :
    StronglySorted (arrival_le (Scheduler.heap s)) (Scheduler.waiting s);
  (* the completion counter is the sum of the two others *)
  wf_comp : forall r,
    Process.comp_time (Scheduler.heap s r)
    = Process.wait_time (Scheduler.heap s r)
      + Process.processed_time (Scheduler.heap s r);
  (* a finished process has run for its execution time *)
  wf_done :
    Forall (fun r => Process.processed_time (Scheduler.heap s r)
                     = Process.ex_time (Scheduler.heap s r))
      (Scheduler.done_processes s);
  (* the process that has just run did not run for too long *)
  wf_limbo :
    Forall (fun r => Process.processed_time (Scheduler.heap s r)
                     <= Process.ex_time (Scheduler.heap s r)) xs;
  (* FIFO and SJF: a process in a queue has not run *)
  wf_fresh :
    match pol with
    | FIFO | SJF =>
        Forall (fun r => Process.processed_time (Scheduler.heap s r) = 0)
          (Scheduler.runnable s ++ Scheduler.waiting s)
    | _ => True
    end;
  (* a process in a queue that needs time to run is not done *)
  wf_live :
    Forall (fun r => 0 < Process.ex_time (Scheduler.heap s r) ->
                     Process.processed_time (Scheduler.heap s r)
                     < Process.ex_time (Scheduler.heap s r))
      (Scheduler.runnable s ++ Scheduler.waiting s);
  (* SJF and SRTF: the runnable queue is in the order of [__lt__] *)
  wf_runnable_sorted :
    match pol with
    | SJF | SRTF => StronglySorted (ref_le (Scheduler.heap s)) (Scheduler.runnable s)
    | _ => True
    end;
  wf_slice :
    match pol with
    | RoundRobin time_slice => 0 < time_slice
    | _ => True
    end
}.

Definition WF (pol : Policy) (input : list Spec) (s : Scheduler.t) : Prop :=
  WFx pol input [] s.

(** The state the base-class [get_next_process] ends in when it stalls: the
    runnable queue of [s] is empty and its waiting queue is [w :: ws]. *)
Definition stall_state (w : ref) (ws : list ref) (s : Scheduler.t) : Scheduler.t :=
  let h := Scheduler.heap s in
  Scheduler.mk (Scheduler.policy s)
    (heap_set h w (Process.set_arrival_time (h w) 0))
    (Scheduler.done_processes s) [w] ws
    (Scheduler.time s + Process.arrival_time (h w))
    (Scheduler.curr_process s) (Scheduler.step_time_ran s)
    (Scheduler.trace s ++ [EvStall w (Process.arrival_time (h w))]).

(** The quantum a step of class [pol] asks [run] for, [c] being the current
    process and [s1] the state after its selection. *)
Definition quantum (pol : Policy) (c : ref) (s1 : Scheduler.t) : Z :=
  match pol with
  | FIFO | SJF => Process.ex_time (Scheduler.heap s1 c)
  | RoundRobin time_slice => time_slice
  | SRTF => Scheduler.SRTF_ex_time c s1
  end.

(** The state a step of class [pol] ends in, [c] being the process it ran
    and [s2] the state right after the call of [run]. *)
Definition step_end (pol : Policy) (c : ref) (s2 : Scheduler.t) : Scheduler.t :=
  match pol with
  | FIFO | SJF =>
      loops_state (Scheduler.advance_time (Scheduler.on_process_done c s2))
  | _ =>
      Scheduler.advance_time (Scheduler.finish_or_requeue c (loops_state s2))
  end.

(** The order [list.sort()] leaves a list in: that of [__lt__], and that of
    the positions before the sort among the processes that [__lt__] does not
    order. *)
Definition stable_le (h : Heap) (x y : ref) : Prop :=
  ref_le h x y /\ (ref_le h y x -> (x < y)%nat).

(** An input the data model admits: every execution time is positive. *)
Definition valid_input (input : list Spec) : Prop :=
  Forall (fun d : Spec => 0 < snd (fst d)) input.

(** The execution time the processes of [l] still need, and the one the
    queued processes of [s] still need. *)
Definition total_left (h : Heap) (l : list ref) : Z :=
  foldr (fun r acc => Process.time_left (h r) + acc) 0 l.



(** No remaining arrival time is negative, and a runnable process has
    arrived. *)
Definition arrived_queue (s : Scheduler.t) : Prop :=
  (forall r, 0 <= Process.arrival_time (Scheduler.heap s r))
  /\ Forall (fun r => Process.arrival_time (Scheduler.heap s r) <= 0)
       (Scheduler.runnable s).




(** ** The listeners of scheduler.py

    The part of a [Scheduler] object the three hooks read and write; a
    listener is a callable of some type [L], and calling it with
    [(self._curr_process, self)] is recorded in [calls]. *)
Module Observers.

Section Listeners.

Variable L : Type.

Record t : Type := mk {
  verbose : Z;                            (* self._verbose *)
  curr_process : option ref;              (* self._curr_process *)
  done_processes : list (option ref);     (* self._done_processes *)
  step_end_listeners : list L;            (* self._step_end_listeners *)
  process_done_listeners : list L;        (* self._process_done_listeners *)
  process_arrive_listeners : list L;      (* self._process_arrive_listeners *)
  calls : list (L * option ref)           (* the calls made, in order *)
}.

(** the setter of [verbose] *)
Definition set_verbose (value : Z) (o : t) : t :=
  mk value (curr_process o) (done_processes o) (step_end_listeners o)
     (process_done_listeners o) (process_arrive_listeners o) (calls o).

(** [register_step_listener] *)
Definition register_step_listener (func : L) (o : t) : t :=
  mk (verbose o) (curr_process o) (done_processes o)
     (step_end_listeners o ++ [func])
     (process_done_listeners o) (process_arrive_listeners o) (calls o).

(** [register_process_done_listener] *)
Definition register_process_done_listener (func : L) (o : t) : t :=
  mk (verbose o) (curr_process o) (done_processes o) (step_end_listeners o)
     (process_done_listeners o ++ [func])
     (process_arrive_listeners o) (calls o).

(** [register_process_arrive_listener] *)
Definition register_process_arrive_listener (func : L) (o : t) : t :=
  mk (verbose o) (curr_process o) (done_processes o) (step_end_listeners o)
     (process_done_listeners o)
     (process_arrive_listeners o ++ [func]) (calls o).

(** [listener(self._curr_process, self)] *)
Definition call (listener : L) (o : t) : t :=
  mk (verbose o) (curr_process o) (done_processes o) (step_end_listeners o)
     (process_done_listeners o) (process_arrive_listeners o)
     (calls o ++ [(listener, curr_process o)]).

(** [for listener in listeners: listener(self._curr_process, self)] *)
Fixpoint call_all (listeners : list L) (o : t) : t :=
  match listeners with
  | [] => o
  | listener :: listeners' => call_all listeners' (call listener o)
  end.

(** [_on_step_end] *)
Definition on_step_end (o : t) : t :=
  if verbose o <=? 1 then o else call_all (step_end_listeners o) o.

(** [_on_process_done] *)
Definition on_process_done (o : t) : t :=
  let o := mk (verbose o) (curr_process o)
              (done_processes o ++ [curr_process o])
              (step_end_listeners o) (process_done_listeners o)
              (process_arrive_listeners o) (calls o) in
  if verbose o <=? 0 then o else call_all (process_done_listeners o) o.

(** [_on_process_arrive] *)
Definition on_process_arrive (o : t) : t :=
  if verbose o <=? 1 then o else call_all (process_arrive_listeners o) o.

End Listeners.

Arguments verbose {L} _.
Arguments curr_process {L} _.
Arguments done_processes {L} _.
Arguments step_end_listeners {L} _.
Arguments process_done_listeners {L} _.
Arguments process_arrive_listeners {L} _.
Arguments calls {L} _.
Arguments set_verbose {L} _ _.
Arguments register_step_listener {L} _ _.
Arguments register_process_done_listener {L} _ _.
Arguments register_process_arrive_listener {L} _ _.
Arguments call {L} _ _.
Arguments call_all {L} _ _.
Arguments on_step_end {L} _.
Arguments on_process_done {L} _.
Arguments on_process_arrive {L} _.

End Observers.

(** ** simulator.py, and the [run] methods of the four classes *)
Module Simulator.

(** [str] of an integer *)
Definition string_of_Z (z : Z) : string := NilZero.string_of_int (Z.to_int z).

(** [stats['title']], as the [run] method of each class sets it *)
Definition title (pol : Policy) : string :=
  match pol with
  | FIFO => "FIFO"
  | SJF => "SJF"
  | RoundRobin time_slice => "R.R. (" ++ string_of_Z time_slice ++ ")"
  | SRTF => "SRTF"
  end.

(** The dictionary [run] returns, without its title: the three statistics
    and, for a Round-Robin scheduler, [time_slice]. *)
Record Entry : Type := mkEntry {
  stats : Scheduler.Stats;
  time_slice : option Z
}.

(** [run] of the four classes: the base-class [run], then the title (and the
    time slice); the scheduler after the run, the title and the rest of the
    dictionary *)
Definition scheduler_run (fuel : nat) (s : Scheduler.t)
    : Result (Scheduler.t * (string * Entry)) :=
  '(s', st) ← Scheduler.run fuel s;
  Ok (s', (title (Scheduler.policy s'),
           mkEntry st match Scheduler.policy s' with
                      | RoundRobin time_slice => Some time_slice
                      | _ => None
                      end)).

(** A Python [dict] with string keys, in insertion order. *)
Definition Dict (V : Type) : Type := list (string * V).

(** [d[k]], or nothing *)
Fixpoint dict_get {V} (k : string) (d : Dict V) : option V :=
  match d with
  | [] => None
  | (k', v') :: d' => if String.eqb k k' then Some v' else dict_get k d'
  end.

(** [d[k] = v]: the value of a key that is present is replaced where it is,
    a new key goes last *)
Fixpoint dict_set {V} (k : string) (v : V) (d : Dict V) : Dict V :=
  match d with
  | [] => [(k, v)]
  | (k', v') :: d' =>
      if String.eqb k k' then (k, v) :: d' else (k', v') :: dict_set k v d'
  end.

(** The first loop of [compare]:
<<
    for scheduler in schedulers:
        stats = scheduler.run()
        title = stats['title']
        stats.pop('title')
        history[title] = stats
>> *)
Fixpoint compare_loop (fuel : nat) (schedulers : list Scheduler.t)
    (history : Dict Entry) : Result (Dict Entry) :=
  match schedulers with
  | [] => Ok history
  | scheduler :: schedulers' =>
      '(_, (title, stats)) ← scheduler_run fuel scheduler;
      compare_loop fuel schedulers' (dict_set title stats history)
  end.

(** [Simulator.compare]; the visuals only read [history] and are left out *)
Definition compare (fuel : nat) (schedulers : list Scheduler.t)
    : Result (Dict Entry) :=
  _ ← py_assert (0 <? length schedulers)%nat "NO SCHEDULERS PROVIDED FOR COMPARE";
  compare_loop fuel schedulers [].

End Simulator.



(** The execution time the input gives to the process [r]. *)
Definition ex_time_of (input : list Spec) (r : ref) : Z :=
  Process.ex_time (heap_of_list (map process_of_spec input) r).

(** * process.py: the methods of a process *)

Section ProcessMethods.

Import Process.

Lemma run_ok p running_time :
  0 < running_time ->
  run p running_time =
    Ok (ran p running_time,
        (Z.min (time_left p) running_time,
         running_time - Z.min (time_left p) running_time)).
Proof.
  intros H. unfold run.
  replace (running_time >? 0) with true by (symmetry; apply Z.gtb_lt; lia).
  reflexivity.
Qed.

Lemma run_err p running_time :
  running_time <= 0 ->
  run p running_time = Err (AssertionError "Process running_time must be > 0").
Proof.
  intros H. unfold run.
  replace (running_time >? 0) with false; [reflexivity|].
  symmetry. rewrite Z.gtb_ltb. apply Z.ltb_ge. lia.
Qed.

Lemma wait_ok p d :
  0 <= d ->
  wait p d = Ok (waited p d).
Proof.
  intros H. unfold wait.
  replace (d >=? 0) with true by (symmetry; apply Z.geb_le; lia).
  reflexivity.
Qed.

Lemma wait_err p d :
  d < 0 -> wait p d = Err (AssertionError "Cannot wait for negative time").
Proof.
  intros H. unfold wait.
  replace (d >=? 0) with false; [reflexivity|].
  symmetry. rewrite Z.geb_leb. apply Z.leb_gt. lia.
Qed.

Lemma wait_arrival_ok p d :
  0 <= d ->
  wait_arrival p d = Ok (arrived p d, arrival_time (arrived p d) =? 0).
Proof.
  intros H. unfold wait_arrival.
  replace (d >=? 0) with true by (symmetry; apply Z.geb_le; lia).
  cbn -[Z.min wait]. rewrite wait_ok by (cbn; lia). reflexivity.
Qed.

Lemma wait_arrival_err p d :
  d < 0 -> wait_arrival p d = Err (AssertionError "Cannot wait for negative time").
Proof.
  intros H. unfold wait_arrival.
  replace (d >=? 0) with false; [reflexivity|].
  symmetry. rewrite Z.geb_leb. apply Z.leb_gt. lia.
Qed.

(** C5: for every process [p] and every duration [d >= 0],
    [wait_arrival(d)] succeeds; with [k = min(p.arrival_time, d)] it
    decreases [arrival_time] by [k], hands the remaining [d - k] (which is
    not negative) to [wait], which adds it to [wait_time] and to the
    completion counter, leaves the other attributes alone, and returns true
    exactly when [arrival_time] is 0 afterwards.  With a negative duration
    both [wait] and [wait_arrival] fail on their assertion. *)
Theorem C5_wait_arrival (p : t) (d : Z) :
  0 <= d ->
  let k := Z.min (arrival_time p) d in
  exists p' (flag : bool),
    wait_arrival p d = Ok (p', flag)
    /\ wait (set_arrival_time p (arrival_time p - k)) (d - k) = Ok p'
    /\ 0 <= d - k
    /\ arrival_time p' = arrival_time p - k
    /\ wait_time p' = wait_time p + (d - k)
    /\ comp_time p' = comp_time p + (d - k)
    /\ pid p' = pid p /\ ex_time p' = ex_time p
    /\ processed_time p' = processed_time p
    /\ (flag = true <-> arrival_time p' = 0)
    /\ (forall d', d' < 0 ->
          wait p d' = Err (AssertionError "Cannot wait for negative time")
          /\ wait_arrival p d' =
               Err (AssertionError "Cannot wait for negative time")).
Proof.
  intros Hd k.
  exists (arrived p d), (arrival_time (arrived p d) =? 0).
  split; [apply wait_arrival_ok; assumption|].
  split; [rewrite wait_ok by (subst k; lia); reflexivity|].
  split; [subst k; lia|].
  repeat (split; [reflexivity|]).
  split; [apply Z.eqb_eq|].
  intros d' Hd'. split; [apply wait_err | apply wait_arrival_err]; assumption.
Qed.

Lemma C5_wait_arrival_witness :
  exists p' (flag : bool),
    wait_arrival (init "P" 4 3) 5 = Ok (p', flag)
    /\ arrival_time p' = 0 /\ wait_time p' = 2 /\ flag = true.
Proof.
  destruct (C5_wait_arrival (init "P" 4 3) 5 ltac:(lia))
    as (p' & flag & H1 & _ & _ & H2 & H3 & _ & _ & _ & _ & H4 & _).
  exists p', flag. cbn in H2, H3.
  split; [exact H1|]. split; [exact H2|]. split; [exact H3|].
  apply H4. exact H2.
Defined.

End ProcessMethods.

(** * The scenario of the specification *)

(** C2: on P1:5:0, P2:3:0, P3:8:0 the FIFO scheduler runs to completion with
    completion times 5, 8, 16 and wait times 0, 5, 8, the averages being 29/3
    and 13/3; the SJF scheduler runs P2, P1, P3 in this order, with
    completion times 3, 8, 16, wait times 0, 3, 8 and averages 9 and 11/3. *)
Theorem C2_scenario_FIFO_SJF :
  (exists s st,
      (s0 ← fresh FIFO scenario; Scheduler.run 3 s0) = Ok (s, st)
      /\ Scheduler.is_done s = true
      /\ report s = [("P1", Ok 5, 0); ("P2", Ok 8, 5); ("P3", Ok 16, 8)]
      /\ (Scheduler.avg_comp_time st == 29 # 3)%Q
      /\ (Scheduler.avg_wait_time st == 13 # 3)%Q)
  /\
  (exists s st,
      (s0 ← fresh SJF scenario; Scheduler.run 3 s0) = Ok (s, st)
      /\ Scheduler.is_done s = true
      /\ runs_of (Scheduler.trace s) = [(1%nat, 3); (0%nat, 5); (2%nat, 8)]
      /\ report s = [("P2", Ok 3, 0); ("P1", Ok 8, 3); ("P3", Ok 16, 8)]
      /\ (Scheduler.avg_comp_time st == 9)%Q
      /\ (Scheduler.avg_wait_time st == 11 # 3)%Q).
Proof.
  split.
  - eexists _, _. split; [vm_compute; reflexivity|].
    repeat split; vm_compute; reflexivity.
  - eexists _, _. split; [vm_compute; reflexivity|].
    repeat split; vm_compute; reflexivity.
Qed.

(** * Sorting and binary insertion *)

Section Order.

Variable h : Heap.

Lemma Process_lt_true p q :
  Process.lt p q = true <->
  Process.arrival_time p < Process.arrival_time q
  \/ (Process.arrival_time p = Process.arrival_time q
      /\ Process.ex_time p < Process.ex_time q).
Proof.
  unfold Process.lt.
  destruct (Z.eqb_spec (Process.arrival_time p) (Process.arrival_time q)).
  - rewrite Z.ltb_lt. lia.
  - rewrite Z.ltb_lt. lia.
Qed.

Lemma Process_lt_false p q :
  Process.lt p q = false <->
  Process.arrival_time q < Process.arrival_time p
  \/ (Process.arrival_time p = Process.arrival_time q
      /\ Process.ex_time q <= Process.ex_time p).
Proof.
  unfold Process.lt.
  destruct (Z.eqb_spec (Process.arrival_time p) (Process.arrival_time q)).
  - rewrite Z.ltb_ge. lia.
  - rewrite Z.ltb_ge. lia.
Qed.

Lemma ref_le_iff x y :
  ref_le h x y <->
  Process.arrival_time (h x) < Process.arrival_time (h y)
  \/ (Process.arrival_time (h x) = Process.arrival_time (h y)
      /\ Process.ex_time (h x) <= Process.ex_time (h y)).
Proof. unfold ref_le, ref_lt. rewrite Process_lt_false. lia. Qed.

Lemma ref_lt_iff x y :
  ref_lt h x y = true <->
  Process.arrival_time (h x) < Process.arrival_time (h y)
  \/ (Process.arrival_time (h x) = Process.arrival_time (h y)
      /\ Process.ex_time (h x) < Process.ex_time (h y)).
Proof. unfold ref_lt. apply Process_lt_true. Qed.

#[local] Instance ref_le_trans : Transitive (ref_le h).
Proof. intros x y z. rewrite !ref_le_iff. lia. Qed.

Lemma ref_le_total x y : ref_le h x y \/ ref_le h y x.
Proof. rewrite !ref_le_iff. lia. Qed.

Lemma ref_lt_le x y : ref_lt h x y = true -> ref_le h x y.
Proof. rewrite ref_lt_iff, ref_le_iff. lia. Qed.

Lemma ref_lt_le_trans x y z :
  ref_lt h x y = true -> ref_le h y z -> ref_lt h x z = true.
Proof. rewrite !ref_lt_iff, ref_le_iff. lia. Qed.

Lemma ref_le_arrival x y : ref_le h x y -> arrival_le h x y.
Proof. unfold arrival_le. rewrite ref_le_iff. lia. Qed.

#[local] Instance arrival_le_trans : Transitive (arrival_le h).
Proof. intros x y z. unfold arrival_le. lia. Qed.

(** [list.sort()] *)

Lemma sort_insert_perm lt x l : sort_insert lt x l ≡ₚ x :: l.
Proof.
  induction l as [|y l IH]; cbn; [reflexivity|].
  destruct (lt y x); [|reflexivity].
  rewrite IH. apply Permutation_swap.
Qed.

Lemma list_sort_perm lt l : list_sort lt l ≡ₚ l.
Proof.
  induction l as [|x l IH]; cbn; [reflexivity|].
  rewrite sort_insert_perm, IH. reflexivity.
Qed.

Lemma sort_insert_sorted x l :
  StronglySorted (ref_le h) l ->
  StronglySorted (ref_le h) (sort_insert (ref_lt h) x l).
Proof.
  induction l as [|y l IH]; cbn; intros Hs.
  - repeat constructor.
  - apply StronglySorted_cons in Hs as [Hy Hl].
    destruct (ref_lt h y x) eqn:E.
    + apply StronglySorted_cons. split; [|auto].
      rewrite sort_insert_perm. constructor; [apply ref_lt_le, E|exact Hy].
    + apply StronglySorted_cons. split.
      * constructor; [exact E|].
        eapply Forall_impl; [exact Hy|].
        intros z Hz. transitivity y; [exact E|exact Hz].
      * apply StronglySorted_cons. auto.
Qed.

Lemma list_sort_sorted l : StronglySorted (ref_le h) (list_sort (ref_lt h) l).
Proof.
  induction l as [|x l IH]; cbn; [constructor|].
  apply sort_insert_sorted, IH.
Qed.

End Order.

Section Bisect.

Variable f : ref -> bool.
Variable a : list ref.

(** Along a sorted list, [x < a[j]] stays true once it is. *)
Hypothesis mono : forall j k yj yk,
  (j <= k)%nat -> a !! j = Some yj -> a !! k = Some yk ->
  f yj = true -> f yk = true.

Lemma bisect_loop_spec fuel : forall lo hi,
  (hi - lo <= fuel)%nat -> (lo <= hi <= length a)%nat ->
  (forall j y, (j < lo)%nat -> a !! j = Some y -> f y = false) ->
  (forall j y, (hi <= j)%nat -> a !! j = Some y -> f y = true) ->
  let i := bisect_loop fuel f a lo hi in
  (lo <= i <= hi)%nat
  /\ (forall j y, (j < i)%nat -> a !! j = Some y -> f y = false)
  /\ (forall j y, (i <= j)%nat -> a !! j = Some y -> f y = true).
Proof.
  induction fuel as [|fuel IH]; intros lo hi Hfuel Hrange Hlo Hhi;
    cbn -[Nat.ltb Nat.div].
  - assert (lo = hi) by lia. subst hi. repeat split; auto; lia.
  - destruct (Nat.ltb_spec lo hi) as [Hlt|Hge].
    2:{ assert (lo = hi) by lia. subst hi. repeat split; auto. }
    pose proof (Nat.div_mod_eq (lo + hi) 2) as Hdm.
    pose proof (Nat.mod_upper_bound (lo + hi) 2 ltac:(lia)) as Hm.
    set (mid := ((lo + hi) / 2)%nat) in *.
    assert (Hmid : (lo <= mid < hi)%nat) by lia.
    destruct (lookup_lt_is_Some_2 a mid ltac:(lia)) as [y Hy].
    rewrite Hy. destruct (f y) eqn:Ef.
    + destruct (IH lo mid) as (H1 & H2 & H3); try lia; auto.
      { intros j yj Hj Hyj. eapply (mono mid j); eauto. }
      repeat split; auto; lia.
    + destruct (IH (mid + 1)%nat hi) as (H1 & H2 & H3); try lia; auto.
      { intros j yj Hj Hyj. destruct (f yj) eqn:Ej; [|reflexivity].
        rewrite <- Ef. symmetry. eapply (mono j mid); eauto. lia. }
      repeat split; auto; lia.
Qed.

End Bisect.

Section Insort.

Variable h : Heap.

Lemma list_insert_at_perm a i x : list_insert_at a i x ≡ₚ x :: a.
Proof.
  unfold list_insert_at. rewrite <- Permutation_middle.
  rewrite take_drop. reflexivity.
Qed.

Lemma insort_perm lt a x : insort lt a x ≡ₚ x :: a.
Proof. apply list_insert_at_perm. Qed.

Lemma insort_sorted a x :
  StronglySorted (ref_le h) a ->
  StronglySorted (ref_le h) (insort (ref_lt h) a x).
Proof.
  intros Hs. unfold insort, bisect_right, list_insert_at.
  destruct (bisect_loop_spec (ref_lt h x) a) with
    (fuel := length a) (lo := 0%nat) (hi := length a) as (_ & Hbefore & Hafter).
  - intros j k yj yk Hjk Hj Hk Hlt.
    destruct (decide (j = k)) as [->|Hne]; [congruence|].
    eapply ref_lt_le_trans; [exact Hlt|].
    rewrite <- (take_drop_middle a j yj Hj) in Hs, Hk.
    apply StronglySorted_app in Hs as (_ & _ & Hs).
    apply StronglySorted_cons in Hs as [Hall _].
    rewrite Forall_forall in Hall. apply Hall.
    rewrite lookup_app_r in Hk by (rewrite length_take; lia).
    rewrite length_take in Hk.
    replace (k - j `min` length a)%nat with (S (k - j - 1)) in Hk
      by (apply lookup_lt_Some in Hj; lia).
    cbn in Hk. eapply list_elem_of_lookup_2, Hk.
  - lia.
  - lia.
  - intros; lia.
  - intros j y Hj Hy. apply lookup_ge_None_2 in Hj. congruence.
  - set (i := bisect_loop (length a) (ref_lt h x) a 0 (length a)) in *.
    rewrite <- (take_drop i a) in Hs.
    apply StronglySorted_app in Hs as (Hcross & Hl & Hr).
    apply StronglySorted_app. split; [|split; [exact Hl|]].
    + intros y z Hy Hz. apply elem_of_cons in Hz as [->|Hz]; [|auto].
      apply list_elem_of_lookup_1 in Hy as [j Hj].
      apply lookup_take_Some in Hj as [Hj Hji].
      apply (Hbefore j y Hji Hj).
    + apply StronglySorted_cons. split; [|exact Hr].
      apply Forall_forall. intros z Hz.
      apply list_elem_of_lookup_1 in Hz as [j Hj].
      rewrite lookup_drop in Hj.
      apply ref_lt_le, (Hafter (i + j)%nat z); [lia|exact Hj].
Qed.

(** [insort] looks at the objects of the list and at the inserted one only. *)
Lemma bisect_loop_ext (f g : ref -> bool) a fuel : forall lo hi,
  (forall y, y ∈ a -> f y = g y) ->
  bisect_loop fuel f a lo hi = bisect_loop fuel g a lo hi.
Proof.
  induction fuel as [|fuel IH]; intros lo hi Hfg; cbn -[Nat.ltb Nat.div];
    [reflexivity|].
  destruct (lo <? hi)%nat; [|reflexivity].
  destruct (a !! ((lo + hi) / 2)%nat) as [y|] eqn:Hy; [|reflexivity].
  rewrite <- (Hfg y) by (eapply list_elem_of_lookup_2, Hy).
  destruct (f y); apply IH, Hfg.
Qed.

Lemma insort_ext h' a x :
  (forall y, y ∈ x :: a -> h' y = h y) ->
  insort (ref_lt h') a x = insort (ref_lt h) a x.
Proof.
  intros Hh. unfold insort, bisect_right. f_equal.
  apply bisect_loop_ext. intros y Hy. unfold ref_lt.
  rewrite (Hh x), (Hh y); [reflexivity| |].
  - apply elem_of_cons. right. exact Hy.
  - apply elem_of_cons. left. reflexivity.
Qed.

End Insort.

(** * The object store *)

Section HeapFacts.

Lemma heap_set_eq h r p : heap_set h r p r = p.
Proof. unfold heap_set. rewrite Nat.eqb_refl. reflexivity. Qed.

Lemma heap_set_ne h r p r' : r' <> r -> heap_set h r p r' = h r'.
Proof.
  intros Hne. unfold heap_set.
  destruct (Nat.eqb_spec r' r); [contradiction|reflexivity].
Qed.

Lemma heap_update_all_notin f rs : forall h r,
  r ∉ rs -> heap_update_all f rs h r = h r.
Proof.
  induction rs as [|x rs IH]; intros h r Hr; cbn; [reflexivity|].
  apply not_elem_of_cons in Hr as [Hne Hr].
  rewrite IH by exact Hr. apply heap_set_ne, Hne.
Qed.

Lemma heap_update_all_in f rs : forall h r,
  NoDup rs -> r ∈ rs -> heap_update_all f rs h r = f (h r).
Proof.
  induction rs as [|x rs IH]; intros h r Hnd Hr; cbn.
  - apply elem_of_nil in Hr as [].
  - apply NoDup_cons in Hnd as [Hx Hnd].
    apply elem_of_cons in Hr as [->|Hr].
    + rewrite heap_update_all_notin by exact Hx. apply heap_set_eq.
    + rewrite IH by assumption. rewrite heap_set_ne; [reflexivity|].
      intros ->. contradiction.
Qed.

(** An attribute that [f] does not change is the same after the loop. *)
Lemma heap_update_all_attr {A} (g : Process.t -> A) f rs : forall h r,
  (forall p, g (f p) = g p) ->
  g (heap_update_all f rs h r) = g (h r).
Proof.
  induction rs as [|x rs IH]; intros h r Hg; cbn; [reflexivity|].
  rewrite IH by exact Hg. unfold heap_set.
  destruct (Nat.eqb_spec r x) as [->|]; [apply Hg|reflexivity].
Qed.

Lemma filter_ext_in {A} (P Q : A -> Prop)
    `{forall x, Decision (P x)} `{forall x, Decision (Q x)} (l : list A) :
  (forall x, x ∈ l -> P x <-> Q x) -> filter P l = filter Q l.
Proof.
  induction l as [|x l IH]; intros HPQ; [reflexivity|].
  rewrite !filter_cons.
  assert (Hx : P x <-> Q x) by (apply HPQ; left).
  rewrite IH by (intros y Hy; apply HPQ; right; exact Hy).
  destruct (decide (P x)), (decide (Q x)); tauto.
Qed.

Lemma StronglySorted_ext_in {A} (R R' : relation A) (l : list A) :
  (forall x y, x ∈ l -> y ∈ l -> R x y -> R' x y) ->
  StronglySorted R l -> StronglySorted R' l.
Proof.
  induction l as [|x l IH]; intros HR Hs; [constructor|].
  apply StronglySorted_cons in Hs as [Hx Hs].
  apply StronglySorted_cons. split.
  - rewrite Forall_forall in *. intros y Hy.
    apply HR; [left|right; exact Hy|apply Hx, Hy].
  - apply IH; [|exact Hs].
    intros y z Hy Hz. apply HR; right; assumption.
Qed.

Lemma add_to_perm pol h a x : add_to pol h a x ≡ₚ x :: a.
Proof.
  destruct pol; cbn.
  - symmetry. apply Permutation_cons_append.
  - apply insort_perm.
  - symmetry. apply Permutation_cons_append.
  - apply insort_perm.
Qed.

Lemma add_all_perm pol h xs : forall a, add_all pol h a xs ≡ₚ a ++ xs.
Proof.
  unfold add_all.
  induction xs as [|x xs IH]; intros a; cbn.
  - rewrite app_nil_r. reflexivity.
  - rewrite IH, add_to_perm. rewrite <- Permutation_middle. reflexivity.
Qed.

Lemma add_to_ext pol h h' a x :
  (forall y, y ∈ x :: a -> h' y = h y) ->
  add_to pol h' a x = add_to pol h a x.
Proof.
  intros Hh. destruct pol; cbn; try reflexivity; apply insort_ext, Hh.
Qed.

Lemma add_all_ext pol h h' xs : forall a,
  (forall y, y ∈ a ++ xs -> h' y = h y) ->
  add_all pol h' a xs = add_all pol h a xs.
Proof.
  unfold add_all.
  induction xs as [|x xs IH]; intros a Hh; cbn; [reflexivity|].
  rewrite (add_to_ext pol h h').
  - apply IH. intros y Hy. apply Hh.
    rewrite elem_of_app in Hy. rewrite (add_to_perm pol h a x) in Hy.
    rewrite elem_of_app, !elem_of_cons in *. tauto.
  - intros y Hy. apply Hh. rewrite elem_of_app, !elem_of_cons in *. tauto.
Qed.

Lemma add_to_sorted pol h a x :
  match pol with
  | SJF | SRTF => StronglySorted (ref_le h) a
  | _ => True
  end ->
  match pol with
  | SJF | SRTF => StronglySorted (ref_le h) (add_to pol h a x)
  | _ => True
  end.
Proof. destruct pol; cbn; auto using insort_sorted. Qed.

Lemma add_all_sorted pol h xs : forall a,
  match pol with
  | SJF | SRTF => StronglySorted (ref_le h) a
  | _ => True
  end ->
  match pol with
  | SJF | SRTF => StronglySorted (ref_le h) (add_all pol h a xs)
  | _ => True
  end.
Proof.
  unfold add_all.
  induction xs as [|x xs IH]; intros a Ha; cbn; [exact Ha|].
  apply IH, add_to_sorted, Ha.
Qed.

Lemma add_all_append pol h a xs :
  match pol with FIFO | RoundRobin _ => True | _ => False end ->
  add_all pol h a xs = a ++ xs.
Proof.
  unfold add_all. revert a.
  induction xs as [|x xs IH]; intros a Hp; cbn.
  - rewrite app_nil_r. reflexivity.
  - rewrite IH by exact Hp. destruct pol; cbn; try contradiction;
      rewrite <- app_assoc; reflexivity.
Qed.

End HeapFacts.

(** * The two loops of a step *)

Section Loops.

Import Scheduler.

Lemma wait_loop_ok rs : forall s,
  0 <= step_time_ran s -> wait_loop rs s = Ok (wait_state rs s).
Proof.
  induction rs as [|r rs IH]; intros s Hd.
  - destruct s. unfold wait_state. cbn. rewrite app_nil_r. reflexivity.
  - cbn. unfold wait_body. rewrite wait_ok by exact Hd. cbn.
    rewrite IH by exact Hd. unfold wait_state. cbn.
    rewrite <- app_assoc. reflexivity.
Qed.

Lemma wait_loop_inv rs s s' :
  wait_loop rs s = Ok s' ->
  s' = wait_state rs s /\ (rs <> [] -> 0 <= step_time_ran s).
Proof.
  intros H. destruct (Z_lt_le_dec (step_time_ran s) 0) as [Hneg|Hpos].
  - destruct rs as [|r rs].
    + cbn in H. injection H as <-. split; [|congruence].
      destruct s. unfold wait_state. cbn. rewrite app_nil_r. reflexivity.
    + cbn in H. unfold wait_body in H.
      rewrite wait_err in H by exact Hneg. discriminate.
  - rewrite wait_loop_ok in H by exact Hpos. injection H as <-. auto.
Qed.

Lemma arrival_flag p d :
  0 <= d ->
  (Process.arrival_time (Process.arrived p d) =? 0)
  = (Process.arrival_time p <=? d).
Proof.
  intros Hd. cbn.
  destruct (Z.leb_spec (Process.arrival_time p) d);
    destruct (Z.eqb_spec (Process.arrival_time p
                          - Z.min (Process.arrival_time p) d) 0); lia.
Qed.

Lemma arrival_loop_ok ws : forall s pre,
  0 <= step_time_ran s ->
  NoDup ws ->
  (forall r, r ∈ ws -> r ∉ runnable s) ->
  StronglySorted (arrival_le (heap s)) ws ->
  waiting s = pre ++ ws ->
  (pre <> [] -> Forall (fun r => ~ arrives (heap s) (step_time_ran s) r) ws) ->
  arrival_loop ws s = Ok (arrival_state pre ws s).
Proof.
  induction ws as [|w ws IH]; intros s pre Hd Hnd Hdisj Hsort Hwait Hpre.
  - destruct s. cbn in *. subst. unfold arrival_state. cbn.
    rewrite !app_nil_r. reflexivity.
  - apply NoDup_cons in Hnd as [Hw Hnd].
    apply StronglySorted_cons in Hsort as [Hwle Hsort].
    cbn [arrival_loop]. unfold arrival_body.
    rewrite wait_arrival_ok by exact Hd.
    cbn [mbind Result_bind]. rewrite arrival_flag by exact Hd.
    set (d := step_time_ran s) in *.
    set (h1 := heap_set (heap s) w (Process.arrived (heap s w) d)).
    assert (Hh1 : forall r, r ∈ ws -> h1 r = heap s r).
    { intros r Hr. subst h1. apply heap_set_ne. intros ->. contradiction. }
    assert (Hf1 : filter (arrives h1 d) ws = filter (arrives (heap s) d) ws).
    { apply filter_ext_in. intros r Hr. unfold arrives. rewrite Hh1; tauto. }
    assert (Hf2 : filter (fun r => ~ arrives h1 d r) ws
                  = filter (fun r => ~ arrives (heap s) d r) ws).
    { apply filter_ext_in. intros r Hr. unfold arrives. rewrite Hh1; tauto. }
    assert (Hm : map (fun r => EvWaitArrival r d
                                 (Process.arrival_time (h1 r) <=? d)) ws
                 = map (fun r => EvWaitArrival r d
                                 (Process.arrival_time (heap s r) <=? d)) ws).
    { apply map_ext_in. intros r Hr. rewrite Hh1; [reflexivity|].
      apply list_elem_of_In, Hr. }
    assert (Hsort1 : StronglySorted (arrival_le h1) ws).
    { eapply StronglySorted_ext_in; [|exact Hsort].
      intros x y Hx Hy. unfold arrival_le. rewrite !Hh1 by assumption. auto. }
    destruct (Process.arrival_time (heap s w) <=? d) eqn:E;
      [pose proof (proj1 (Z.leb_le _ _) E) as Hle
      |pose proof (proj1 (Z.leb_gt _ _) E) as Hgt].
    + (* [w] arrives: nothing was kept before it *)
      assert (pre = []) as ->.
      { destruct pre as [|x pre]; [reflexivity|].
        specialize (Hpre ltac:(discriminate)).
        apply Forall_cons in Hpre as [Hn _]. unfold arrives in Hn. lia. }
      cbn [app] in Hwait.
      cbn [mbind Result_bind].
      match goal with |- arrival_loop ws ?x = _ => set (s1 := x) end.
      rewrite (IH s1 []).
      * f_equal. unfold arrival_state. subst s1. cbn -[filter].
        fold d. fold h1.
        rewrite Hf1, Hf2, Hm.
        rewrite (filter_cons_True (arrives (heap s) d)) by exact Hle.
        rewrite (filter_cons_False (fun r => ~ arrives (heap s) d r))
          by (unfold arrives; lia).
        rewrite <- app_assoc. cbn [app add_all fold_left map]. rewrite E.
        f_equal. unfold add_all. cbn [fold_left]. f_equal.
        apply add_to_ext. intros y Hy.
        symmetry. apply heap_update_all_notin. intros Hin.
        apply elem_of_cons in Hy as [->|Hy]; [contradiction|].
        apply (Hdisj y); [right; exact Hin|exact Hy].
      * exact Hd.
      * exact Hnd.
      * intros r Hr. subst s1. cbn.
        rewrite add_to_perm. intros Hin.
        apply elem_of_cons in Hin as [->|Hin]; [contradiction|].
        apply (Hdisj r); [right; exact Hr|exact Hin].
      * exact Hsort1.
      * subst s1. cbn. rewrite Hwait. reflexivity.
      * congruence.
    + (* [w] stays, and so does every later one *)
      cbn [mbind Result_bind].
      match goal with |- arrival_loop ws ?x = _ => set (s1 := x) end.
      rewrite (IH s1 (pre ++ [w])).
      * f_equal. unfold arrival_state. subst s1. cbn -[filter].
        fold d. fold h1. rewrite Hf1, Hf2, Hm.
        rewrite (filter_cons_False (arrives (heap s) d))
          by (unfold arrives; lia).
        rewrite (filter_cons_True (fun r => ~ arrives (heap s) d r))
          by (unfold arrives; lia).
        cbn [map]. rewrite E, <- !app_assoc. reflexivity.
      * exact Hd.
      * exact Hnd.
      * intros r Hr. subst s1. cbn. apply Hdisj. right. exact Hr.
      * exact Hsort1.
      * subst s1. cbn. rewrite Hwait, <- app_assoc. reflexivity.
      * intros _. subst s1. cbn. fold d. fold h1.
        rewrite Forall_forall in *. intros r Hr.
        unfold arrives, arrival_le in *. rewrite Hh1 by exact Hr.
        specialize (Hwle r Hr). lia.
Qed.

Lemma arrival_loop_inv ws s s' pre :
  arrival_loop ws s = Ok s' ->
  NoDup ws ->
  (forall r, r ∈ ws -> r ∉ runnable s) ->
  StronglySorted (arrival_le (heap s)) ws ->
  waiting s = pre ++ ws ->
  (pre <> [] -> Forall (fun r => ~ arrives (heap s) (step_time_ran s) r) ws) ->
  s' = arrival_state pre ws s /\ (ws <> [] -> 0 <= step_time_ran s).
Proof.
  intros H Hnd Hdisj Hsort Hwait Hpre.
  destruct (Z_lt_le_dec (step_time_ran s) 0) as [Hneg|Hpos].
  - destruct ws as [|w ws].
    + cbn in H. injection H as <-. split; [|congruence].
      destruct s. cbn in *. subst. unfold arrival_state. cbn.
      rewrite !app_nil_r. reflexivity.
    + cbn in H. unfold arrival_body in H.
      rewrite wait_arrival_err in H by exact Hneg. discriminate.
  - rewrite (arrival_loop_ok ws s pre) in H by assumption.
    injection H as <-. auto.
Qed.

End Loops.

(** * The shape of a step *)

Section StepShape.

Import Scheduler.

Lemma get_next_process_inv s c s1 :
  get_next_process s = Ok (c, s1) <->
  exists rest,
    runnable (base_get_next_process s) = c :: rest
    /\ s1 = set_runnable (base_get_next_process s) rest.
Proof.
  unfold get_next_process.
  destruct (runnable (base_get_next_process s)) as [|x rest] eqn:E.
  - split; [discriminate|]. intros (rest & H & _). discriminate.
  - cbn [drop]. split.
    + intros H. injection H as <- <-. eauto.
    + intros (rest' & H & ->). injection H as <- <-. reflexivity.
Qed.

Lemma run_curr_ok c q s :
  0 < q ->
  run_curr c q s
  = Ok (q - Z.min (Process.time_left (heap s c)) q, ran_state c q s).
Proof.
  intros Hq. unfold run_curr. rewrite run_ok by exact Hq. reflexivity.
Qed.

Lemma run_curr_err c q s :
  q <= 0 ->
  run_curr c q s = Err (AssertionError "Process running_time must be > 0").
Proof.
  intros Hq. unfold run_curr. rewrite run_err by exact Hq. reflexivity.
Qed.

Section TwoLoops.

Variable s : t.
Hypothesis Hnd : NoDup (runnable s ++ waiting s).
Hypothesis Hsort : StronglySorted (arrival_le (heap s)) (waiting s).

Let s3 := wait_state (runnable s) s.

Lemma loops_premises :
  NoDup (waiting s3)
  /\ (forall r, r ∈ waiting s3 -> r ∉ runnable s3)
  /\ StronglySorted (arrival_le (heap s3)) (waiting s3).
Proof.
  apply NoDup_app in Hnd as (Hr & Hdisj & Hw).
  subst s3. cbn. split; [exact Hw|]. split.
  - intros r Hrw Hrr. apply (Hdisj r); assumption.
  - eapply StronglySorted_ext_in; [|exact Hsort].
    intros x y Hx Hy. unfold arrival_le.
    rewrite !heap_update_all_notin; [tauto| |];
      intros Hin; eapply Hdisj; eassumption.
Qed.

Lemma loops_ok : 0 <= step_time_ran s -> loops s = Ok (loops_state s).
Proof.
  intros Hd. destruct loops_premises as (H1 & H2 & H3).
  unfold loops. rewrite wait_loop_ok by exact Hd. cbn [mbind Result_bind].
  fold s3. rewrite (arrival_loop_ok (waiting s3) s3 []); auto.
  congruence.
Qed.

Lemma loops_inv s' :
  loops s = Ok s' ->
  s' = loops_state s
  /\ (runnable s ++ waiting s <> [] -> 0 <= step_time_ran s).
Proof.
  intros H. destruct loops_premises as (H1 & H2 & H3).
  unfold loops in H.
  destruct (wait_loop (runnable s) s) as [s3'|] eqn:E1; [|discriminate].
  apply wait_loop_inv in E1 as [-> Hd1]. cbn [mbind Result_bind] in H.
  fold s3 in H.
  apply (arrival_loop_inv _ _ _ []) in H as [-> Hd2]; auto; [|congruence].
  split; [reflexivity|]. intros Hne.
  destruct (runnable s) as [|x l] eqn:Er.
  - apply Hd2. subst s3. cbn. exact Hne.
  - apply Hd1. discriminate.
Qed.

End TwoLoops.

(** FIFO and SJF *)
Lemma step_run_to_completion_unfold msg s :
  step_run_to_completion msg s =
  match get_next_process s with
  | Ok (c, s1) =>
      match run_curr c (Process.ex_time (heap s1 c)) (set_curr_process s1 c) with
      | Ok (time_leftover, s2) =>
          if time_leftover =? 0
          then loops (advance_time (on_process_done c s2))
          else Err (AssertionError msg)
      | Err e => Err e
      end
  | Err e => Err e
  end.
Proof.
  unfold step_run_to_completion.
  destruct (get_next_process s) as [[c s1]|e]; [|reflexivity].
  cbn [mbind Result_bind]. cbn [heap set_curr_process].
  destruct (run_curr _ _ _) as [[l s2]|e]; [|reflexivity].
  cbn [mbind Result_bind]. unfold py_assert.
  destruct (l =? 0); reflexivity.
Qed.

Lemma step_run_to_completion_inv msg s s' :
  let s0 := base_get_next_process s in
  NoDup (runnable s0 ++ waiting s0) ->
  StronglySorted (arrival_le (heap s0)) (waiting s0) ->
  step_run_to_completion msg s = Ok s' ->
  exists c rest,
    runnable s0 = c :: rest
    /\ 0 < Process.ex_time (heap s0 c)
    /\ Process.processed_time (heap s0 c) <= 0
    /\ s' = loops_state
              (advance_time
                 (on_process_done c
                    (ran_state c (Process.ex_time (heap s0 c))
                       (selected c rest s0)))).
Proof.
  intros s0 Hnd Hsort H. rewrite step_run_to_completion_unfold in H.
  destruct (get_next_process s) as [[c s1]|] eqn:E; [|discriminate].
  apply get_next_process_inv in E as (rest & Hrun & ->).
  fold s0 in Hrun, H |- *.
  exists c, rest. split; [exact Hrun|].
  change (heap (set_runnable s0 rest) c) with (heap s0 c) in H.
  fold (selected c rest s0) in H.
  destruct (Z_lt_le_dec 0 (Process.ex_time (heap s0 c))) as [Hpos|Hneg].
  2:{ rewrite run_curr_err in H by exact Hneg. discriminate. }
  rewrite run_curr_ok in H by exact Hpos.
  destruct (_ =? 0) eqn:Hleft in H; [|discriminate].
  apply Z.eqb_eq in Hleft.
  split; [exact Hpos|]. split.
  { change (heap (selected c rest s0) c) with (heap s0 c) in Hleft.
    unfold Process.time_left in Hleft. lia. }
  apply loops_inv in H as [-> _]; [reflexivity| |].
  - cbn. rewrite Hrun in Hnd. apply NoDup_cons in Hnd. tauto.
  - cbn. eapply StronglySorted_ext_in; [|exact Hsort].
    intros x y Hx Hy. unfold arrival_le.
    rewrite Hrun in Hnd. apply NoDup_cons in Hnd as [Hc _].
    rewrite !heap_set_ne; [tauto| |]; intros ->; apply Hc;
      apply elem_of_app; right; assumption.
Qed.

Lemma step_run_to_completion_ok msg s c rest :
  let s0 := base_get_next_process s in
  NoDup (runnable s0 ++ waiting s0) ->
  StronglySorted (arrival_le (heap s0)) (waiting s0) ->
  runnable s0 = c :: rest ->
  0 < Process.ex_time (heap s0 c) ->
  Process.processed_time (heap s0 c) = 0 ->
  step_run_to_completion msg s
  = Ok (loops_state
          (advance_time
             (on_process_done c
                (ran_state c (Process.ex_time (heap s0 c))
                   (selected c rest s0))))).
Proof.
  intros s0 Hnd Hsort Hrun Hpos Hzero. unfold step_run_to_completion.
  assert (E : get_next_process s = Ok (c, set_runnable s0 rest)).
  { apply get_next_process_inv. eauto. }
  rewrite E. cbn [mbind Result_bind]. cbn [heap set_curr_process set_runnable].
  rewrite run_curr_ok by exact Hpos. cbn [mbind Result_bind].
  cbn [heap set_curr_process set_runnable].
  unfold py_assert, Process.time_left. rewrite Hzero.
  replace (_ - Z.min _ _ =? 0) with true by (symmetry; apply Z.eqb_eq; lia).
  cbn [mbind Result_bind].
  apply loops_ok.
  - cbn. rewrite Hrun in Hnd. apply NoDup_cons in Hnd. tauto.
  - cbn. eapply StronglySorted_ext_in; [|exact Hsort].
    intros x y Hx Hy. unfold arrival_le.
    rewrite Hrun in Hnd. apply NoDup_cons in Hnd as [Hc _].
    rewrite !heap_set_ne; [tauto| |]; intros ->; apply Hc;
      apply elem_of_app; right; assumption.
  - cbn. unfold Process.time_left. rewrite Hzero. lia.
Qed.

(** Round-Robin and SRTF, the quantum asked for being [quantum s1] *)
Lemma step_preemptive_inv (quantum : ref -> t -> Z) s s' :
  let s0 := base_get_next_process s in
  NoDup (runnable s0 ++ waiting s0) ->
  StronglySorted (arrival_le (heap s0)) (waiting s0) ->
  ('(c, s1) ← get_next_process s;
   let s1 := set_curr_process s1 c in
   '(_, s2) ← run_curr c (quantum c s1) s1;
   step_preemptive_end c s2) = Ok s' ->
  exists c rest,
    runnable s0 = c :: rest
    /\ let s1 := selected c rest s0 in
       let s2 := ran_state c (quantum c s1) s1 in
       0 < quantum c s1
       /\ (rest ++ waiting s0 <> [] -> 0 <= step_time_ran s2)
       /\ s' = advance_time (finish_or_requeue c (loops_state s2)).
Proof.
  intros s0 Hnd Hsort H.
  destruct (get_next_process s) as [[c s1]|] eqn:E; [|discriminate].
  apply get_next_process_inv in E as (rest & Hrun & ->). fold s0 in Hrun, H |- *.
  cbn [mbind Result_bind] in H. fold (selected c rest s0) in H.
  exists c, rest. split; [exact Hrun|]. intros s1 s2. fold s1 in H.
  destruct (Z_lt_le_dec 0 (quantum c s1)) as [Hpos|Hneg].
  2:{ rewrite run_curr_err in H by exact Hneg. discriminate. }
  rewrite run_curr_ok in H by exact Hpos. cbn [mbind Result_bind] in H.
  fold s2 in H. unfold step_preemptive_end in H.
  destruct (loops s2) as [s4|] eqn:E4; [|discriminate].
  cbn [mbind Result_bind] in H. injection H as <-.
  apply loops_inv in E4 as [-> Hd].
  - split; [exact Hpos|]. split; [|reflexivity]. exact Hd.
  - cbn. rewrite Hrun in Hnd. apply NoDup_cons in Hnd. tauto.
  - cbn. eapply StronglySorted_ext_in; [|exact Hsort].
    intros x y Hx Hy. unfold arrival_le.
    rewrite Hrun in Hnd. apply NoDup_cons in Hnd as [Hc _].
    rewrite !heap_set_ne; [tauto| |]; intros ->; apply Hc;
      apply elem_of_app; right; assumption.
Qed.

Lemma step_preemptive_ok (quantum : ref -> t -> Z) s c rest :
  let s0 := base_get_next_process s in
  let s1 := selected c rest s0 in
  let s2 := ran_state c (quantum c s1) s1 in
  NoDup (runnable s0 ++ waiting s0) ->
  StronglySorted (arrival_le (heap s0)) (waiting s0) ->
  runnable s0 = c :: rest ->
  0 < quantum c s1 ->
  0 <= step_time_ran s2 ->
  ('(c, s1) ← get_next_process s;
   let s1 := set_curr_process s1 c in
   '(_, s2) ← run_curr c (quantum c s1) s1;
   step_preemptive_end c s2)
  = Ok (advance_time (finish_or_requeue c (loops_state s2))).
Proof.
  intros s0 s1 s2 Hnd Hsort Hrun Hpos Hd.
  assert (E : get_next_process s = Ok (c, set_runnable s0 rest)).
  { apply get_next_process_inv. eauto. }
  rewrite E. cbn [mbind Result_bind]. fold (selected c rest s0). fold s1.
  rewrite run_curr_ok by exact Hpos. cbn [mbind Result_bind]. fold s2.
  unfold step_preemptive_end. rewrite loops_ok; [reflexivity| | |exact Hd].
  - cbn. rewrite Hrun in Hnd. apply NoDup_cons in Hnd. tauto.
  - cbn. eapply StronglySorted_ext_in; [|exact Hsort].
    intros x y Hx Hy. unfold arrival_le.
    rewrite Hrun in Hnd. apply NoDup_cons in Hnd as [Hc _].
    rewrite !heap_set_ne; [tauto| |]; intros ->; apply Hc;
      apply elem_of_app; right; assumption.
Qed.

End StepShape.

(** * The invariant is kept *)

Lemma heap_update_all_pred (I : Process.t -> Prop) f rs : forall h,
  (forall p, I p -> I (f p)) ->
  (forall r, I (h r)) ->
  forall r, I (heap_update_all f rs h r).
Proof.
  induction rs as [|x rs IH]; intros h Hf Hh r; cbn; [apply Hh|].
  apply IH; [exact Hf|]. intros r'. unfold heap_set.
  destruct (Nat.eqb r' x); auto.
Qed.

Lemma StronglySorted_filter {A} (R : relation A) (P : A -> Prop)
    `{forall x, Decision (P x)} (l : list A) :
  StronglySorted R l -> StronglySorted R (filter P l).
Proof.
  induction l as [|x l IH]; intros Hs; [constructor|].
  apply StronglySorted_cons in Hs as [Hx Hs].
  rewrite filter_cons. destruct (decide (P x)); [|auto].
  apply StronglySorted_cons. split; [|auto].
  rewrite Forall_forall in *. intros y Hy.
  apply list_elem_of_filter in Hy as [_ Hy]. auto.
Qed.

Lemma NoDup_app4 (a b c d : list ref) :
  NoDup (a ++ b ++ c ++ d) ->
  NoDup a /\ NoDup b /\ NoDup c /\ NoDup d
  /\ (forall r, r ∈ a -> (r ∉ b) /\ (r ∉ c) /\ (r ∉ d))
  /\ (forall r, r ∈ b -> (r ∉ c) /\ (r ∉ d))
  /\ (forall r, r ∈ c -> r ∉ d).
Proof.
  rewrite !NoDup_app.
  intros (Ha & Hab & Hb & Hbc & Hc & Hcd & Hd).
  repeat (split; [assumption|]). split; [|split].
  - intros r Hr. specialize (Hab r Hr). rewrite !elem_of_app in Hab. tauto.
  - intros r Hr. specialize (Hbc r Hr). rewrite !elem_of_app in Hbc. tauto.
  - exact Hcd.
Qed.

Section LoopsState.

Import Scheduler.

Variable s : t.
Hypothesis Hnd : NoDup (runnable s ++ waiting s).

Lemma loops_attr {A} (g : Process.t -> A) r :
  (forall p d, g (Process.waited p d) = g p) ->
  (forall p d, g (Process.arrived p d) = g p) ->
  g (heap (loops_state s) r) = g (heap s r).
Proof.
  intros H1 H2. cbn.
  rewrite heap_update_all_attr by (intros; apply H2).
  rewrite heap_update_all_attr by (intros; apply H1). reflexivity.
Qed.

Lemma loops_ex_time r :
  Process.ex_time (heap (loops_state s) r) = Process.ex_time (heap s r).
Proof. apply loops_attr; reflexivity. Qed.

Lemma loops_processed_time r :
  Process.processed_time (heap (loops_state s) r)
  = Process.processed_time (heap s r).
Proof. apply loops_attr; reflexivity. Qed.

Lemma loops_pid r :
  Process.pid (heap (loops_state s) r) = Process.pid (heap s r).
Proof. apply loops_attr; reflexivity. Qed.

Lemma loops_heap_runnable r :
  r ∈ runnable s ->
  heap (loops_state s) r = Process.waited (heap s r) (step_time_ran s).
Proof.
  intros Hr. apply NoDup_app in Hnd as (H1 & H2 & H3). cbn.
  rewrite heap_update_all_notin by (apply H2, Hr).
  apply heap_update_all_in; assumption.
Qed.

Lemma loops_heap_waiting r :
  r ∈ waiting s ->
  heap (loops_state s) r = Process.arrived (heap s r) (step_time_ran s).
Proof.
  intros Hr. apply NoDup_app in Hnd as (H1 & H2 & H3). cbn.
  rewrite heap_update_all_in by assumption.
  rewrite heap_update_all_notin; [reflexivity|].
  intros Hin. apply (H2 r); assumption.
Qed.

Lemma loops_heap_other r :
  r ∉ runnable s ++ waiting s -> heap (loops_state s) r = heap s r.
Proof.
  intros Hr. apply not_elem_of_app in Hr as [H1 H2]. cbn.
  rewrite !heap_update_all_notin by assumption. reflexivity.
Qed.

Lemma loops_waiting :
  waiting (loops_state s)
  = filter (fun r => ~ arrives (heap s) (step_time_ran s) r) (waiting s).
Proof.
  apply NoDup_app in Hnd as (H1 & H2 & H3). cbn -[filter].
  apply filter_ext_in. intros r Hr. unfold arrives.
  rewrite heap_update_all_notin; [tauto|].
  intros Hin. apply (H2 r); assumption.
Qed.

Lemma loops_runnable :
  runnable (loops_state s)
  = add_all (policy s) (heap (loops_state s)) (runnable s)
      (filter (arrives (heap s) (step_time_ran s)) (waiting s)).
Proof.
  apply NoDup_app in Hnd as (H1 & H2 & H3). cbn -[filter].
  f_equal. apply filter_ext_in. intros r Hr. unfold arrives.
  rewrite heap_update_all_notin; [tauto|].
  intros Hin. apply (H2 r); assumption.
Qed.

Lemma loops_runnable_perm :
  runnable (loops_state s)
  ≡ₚ runnable s ++ filter (arrives (heap s) (step_time_ran s)) (waiting s).
Proof. rewrite loops_runnable. apply add_all_perm. Qed.

Lemma loops_pending_perm :
  runnable (loops_state s) ++ waiting (loops_state s)
  ≡ₚ runnable s ++ waiting s.
Proof.
  rewrite loops_runnable_perm, loops_waiting, <- app_assoc.
  apply Permutation_app_head, filter_app_complement.
Qed.

Lemma loops_done : done_processes (loops_state s) = done_processes s.
Proof. reflexivity. Qed.

Lemma loops_time : time (loops_state s) = time s.
Proof. reflexivity. Qed.

Lemma loops_policy : policy (loops_state s) = policy s.
Proof. reflexivity. Qed.

Lemma loops_step_time_ran : step_time_ran (loops_state s) = step_time_ran s.
Proof. reflexivity. Qed.

End LoopsState.

Section LoopsInvariant.

Import Scheduler.

Variables (pol : Policy) (input : list Spec) (xs : list ref) (s : t).
Hypothesis Hwf : WFx pol input xs s.

Lemma wfx_NoDup :
  NoDup (xs ++ runnable s ++ waiting s ++ done_processes s).
Proof. rewrite (wf_queues _ _ _ _ Hwf). apply NoDup_seq. Qed.

Lemma wfx_NoDup_pending : NoDup (runnable s ++ waiting s).
Proof.
  pose proof wfx_NoDup as H. apply NoDup_app in H as (_ & _ & H).
  rewrite app_assoc in H. apply NoDup_app in H. tauto.
Qed.

Lemma loops_WFx : WFx pol input xs (loops_state s).
Proof.
  pose proof wfx_NoDup_pending as Hnd.
  pose proof (loops_pending_perm s Hnd) as Hperm.
  destruct Hwf as [Hpol Hq Hst Hwp Hws Hcomp Hdone Hlimbo Hfresh Hlive Hrs Hsl].
  constructor.
  - exact Hpol.
  - rewrite <- Hq. apply Permutation_app_head.
    rewrite loops_done, !app_assoc. apply Permutation_app_tail, Hperm.
  - intros r. rewrite loops_pid, loops_ex_time. apply Hst.
  - rewrite loops_waiting by exact Hnd.
    apply Forall_forall. intros r Hr.
    apply list_elem_of_filter in Hr as [Hna Hr].
    rewrite loops_heap_waiting by assumption.
    unfold arrives in Hna. cbn. lia.
  - rewrite loops_waiting by exact Hnd.
    eapply StronglySorted_ext_in; [|apply StronglySorted_filter, Hws].
    intros x y Hx Hy.
    apply list_elem_of_filter in Hx as [Hxa Hx].
    apply list_elem_of_filter in Hy as [Hya Hy].
    unfold arrival_le, arrives in *.
    rewrite !loops_heap_waiting by assumption. cbn. lia.
  - intros r. cbn.
    apply (heap_update_all_pred
             (fun p => Process.comp_time p
                       = Process.wait_time p + Process.processed_time p)).
    { intros p Hp. cbn. lia. }
    apply (heap_update_all_pred
             (fun p => Process.comp_time p
                       = Process.wait_time p + Process.processed_time p)).
    { intros p Hp. cbn. lia. }
    exact Hcomp.
  - rewrite loops_done. eapply Forall_impl; [exact Hdone|].
    intros r Hr. cbn beta in *.
    rewrite loops_processed_time, loops_ex_time. exact Hr.
  - eapply Forall_impl; [exact Hlimbo|].
    intros r Hr. cbn beta in *.
    rewrite loops_processed_time, loops_ex_time. exact Hr.
  - destruct pol; try exact I.
    + rewrite Hperm. eapply Forall_impl; [exact Hfresh|].
      intros r Hr. cbn beta in *. rewrite loops_processed_time. exact Hr.
    + rewrite Hperm. eapply Forall_impl; [exact Hfresh|].
      intros r Hr. cbn beta in *. rewrite loops_processed_time. exact Hr.
  - rewrite Hperm. eapply Forall_impl; [exact Hlive|].
    intros r Hr. cbn beta in *.
    rewrite loops_processed_time, loops_ex_time. exact Hr.
  - assert (Hext : StronglySorted (ref_le (heap s)) (runnable s) ->
                   StronglySorted (ref_le (heap (loops_state s))) (runnable s)).
    { apply StronglySorted_ext_in. intros x y Hx Hy.
      rewrite !ref_le_iff.
      rewrite !loops_ex_time, !loops_heap_runnable by assumption. cbn. tauto. }
    rewrite loops_runnable by exact Hnd. rewrite Hpol.
    destruct pol; try exact I.
    + apply (add_all_sorted SJF). auto.
    + apply (add_all_sorted SRTF). auto.
  - exact Hsl.
Qed.

End LoopsInvariant.

Section StallInvariant.

Import Scheduler.

Lemma add_to_nil pol h x : add_to pol h [] x = [x].
Proof. destruct pol; reflexivity. Qed.

Lemma base_get_next_process_stall s w ws :
  runnable s = [] -> waiting s = w :: ws ->
  base_get_next_process s = stall_state w ws s.
Proof.
  intros Hr Hw. unfold base_get_next_process. rewrite Hr, Hw. cbn.
  unfold add_runnable. cbn. rewrite Hr, add_to_nil. reflexivity.
Qed.

Lemma base_get_next_process_id s :
  runnable s <> [] \/ waiting s = [] -> base_get_next_process s = s.
Proof.
  intros H. unfold base_get_next_process.
  destruct (runnable s) as [|x l]; [|reflexivity].
  destruct (waiting s) as [|w ws]; [reflexivity|].
  destruct H; congruence.
Qed.

Lemma base_get_next_process_cases s :
  (runnable s = [] /\ exists w ws, waiting s = w :: ws
                                   /\ base_get_next_process s = stall_state w ws s)
  \/ ((runnable s <> [] \/ waiting s = []) /\ base_get_next_process s = s).
Proof.
  destruct (runnable s) as [|x l] eqn:Hr.
  - destruct (waiting s) as [|w ws] eqn:Hw.
    + right. split; [auto|]. apply base_get_next_process_id. auto.
    + left. split; [reflexivity|]. exists w, ws. split; [reflexivity|].
      apply base_get_next_process_stall; assumption.
  - right. split; [left; discriminate|].
    apply base_get_next_process_id. left. congruence.
Qed.

Lemma Forall_heap_set (P : Process.t -> Prop) h c p (l : list ref) :
  c ∉ l -> Forall (fun r => P (h r)) l ->
  Forall (fun r => P (heap_set h c p r)) l.
Proof.
  intros Hc Hl. rewrite Forall_forall in *. intros r Hr.
  rewrite heap_set_ne; [auto|]. intros ->. contradiction.
Qed.

Lemma StronglySorted_heap_set (R : Heap -> relation ref) h c p (l : list ref) :
  (forall h h' x y, h' x = h x -> h' y = h y -> R h x y -> R h' x y) ->
  c ∉ l -> StronglySorted (R h) l ->
  StronglySorted (R (heap_set h c p)) l.
Proof.
  intros HR Hc. apply StronglySorted_ext_in. intros x y Hx Hy.
  apply HR; apply heap_set_ne; intros ->; contradiction.
Qed.

Lemma arrival_le_local h h' x y :
  h' x = h x -> h' y = h y -> arrival_le h x y -> arrival_le h' x y.
Proof. unfold arrival_le. intros -> ->. auto. Qed.

Lemma ref_le_local h h' x y :
  h' x = h x -> h' y = h y -> ref_le h x y -> ref_le h' x y.
Proof. unfold ref_le, ref_lt. intros -> ->. auto. Qed.

Variables (pol : Policy) (input : list Spec).

Lemma stall_WF s : WF pol input s -> WF pol input (base_get_next_process s).
Proof.
  intros Hwf.
  destruct (base_get_next_process_cases s)
    as [(Hr & w & ws & Hw & ->)|[_ ->]]; [|exact Hwf].
  pose proof (wfx_NoDup _ _ _ _ Hwf) as Hnd.
  destruct Hwf as [Hpol Hq Hst Hwp Hws Hcomp Hdone Hlimbo Hfresh Hlive Hrs Hsl].
  rewrite Hr, Hw in *. cbn [app] in *.
  apply NoDup_cons in Hnd as [Hw_notin Hnd].
  apply not_elem_of_app in Hw_notin as [Hw_ws Hw_done].
  apply Forall_cons in Hwp as [Hw_pos Hwp].
  apply StronglySorted_cons in Hws as [_ Hws].
  constructor; cbn [stall_state policy heap done_processes runnable waiting app].
  - exact Hpol.
  - exact Hq.
  - intros r. unfold heap_set. destruct (Nat.eqb_spec r w) as [->|]; apply Hst.
  - apply (Forall_heap_set (fun p => 0 < Process.arrival_time p));
      assumption.
  - apply (StronglySorted_heap_set arrival_le);
      [exact arrival_le_local|assumption|assumption].
  - intros r. unfold heap_set. destruct (Nat.eqb_spec r w) as [->|]; apply Hcomp.
  - apply (Forall_heap_set
             (fun p => Process.processed_time p = Process.ex_time p));
      assumption.
  - constructor.
  - destruct pol; try exact I.
    + apply Forall_cons in Hfresh as [Hf1 Hf2].
      constructor; [rewrite heap_set_eq; exact Hf1|].
      apply (Forall_heap_set (fun p => Process.processed_time p = 0));
        assumption.
    + apply Forall_cons in Hfresh as [Hf1 Hf2].
      constructor; [rewrite heap_set_eq; exact Hf1|].
      apply (Forall_heap_set (fun p => Process.processed_time p = 0));
        assumption.
  - apply Forall_cons in Hlive as [Hl1 Hl2].
    constructor; [rewrite heap_set_eq; exact Hl1|].
    apply (Forall_heap_set
             (fun p => 0 < Process.ex_time p ->
                       Process.processed_time p < Process.ex_time p));
      assumption.
  - destruct pol; try exact I; repeat constructor.
  - exact Hsl.
Qed.

End StallInvariant.

Section StepInvariant.

Import Scheduler.

Variables (pol : Policy) (input : list Spec).

(** Selection of the head of the runnable queue, and its run. *)
Lemma run_WFx s0 c rest q :
  WF pol input s0 -> runnable s0 = c :: rest ->
  WFx pol input [c] (ran_state c q (selected c rest s0)).
Proof.
  intros Hwf Hrun.
  pose proof (wfx_NoDup _ _ _ _ Hwf) as Hnd.
  destruct Hwf as [Hpol Hq Hst Hwp Hws Hcomp Hdone Hlimbo Hfresh Hlive Hrs Hsl].
  rewrite Hrun in *. cbn [app] in *.
  apply NoDup_cons in Hnd as [Hc Hnd].
  rewrite !elem_of_app in Hc.
  assert (Hc1 : c ∉ rest) by tauto.
  assert (Hc2 : c ∉ waiting s0) by tauto.
  assert (Hc3 : c ∉ done_processes s0) by tauto.
  assert (Hc4 : c ∉ rest ++ waiting s0) by (rewrite elem_of_app; tauto).
  constructor;
    cbn [ran_state selected log set_step_time_ran set_heap set_curr_process
         set_runnable policy heap done_processes runnable waiting app].
  - exact Hpol.
  - exact Hq.
  - intros r. unfold heap_set. destruct (Nat.eqb_spec r c) as [->|]; apply Hst.
  - apply (Forall_heap_set (fun p => 0 < Process.arrival_time p));
      assumption.
  - apply (StronglySorted_heap_set arrival_le);
      [exact arrival_le_local|assumption|assumption].
  - intros r. unfold heap_set. destruct (Nat.eqb_spec r c) as [->|]; [|apply Hcomp].
    cbn. rewrite (Hcomp c). lia.
  - apply (Forall_heap_set
             (fun p => Process.processed_time p = Process.ex_time p));
      assumption.
  - constructor; [|constructor]. rewrite heap_set_eq. cbn.
    unfold Process.time_left. lia.
  - destruct pol; try exact I.
    + apply Forall_cons in Hfresh as [_ Hf].
      apply (Forall_heap_set (fun p => Process.processed_time p = 0));
        assumption.
    + apply Forall_cons in Hfresh as [_ Hf].
      apply (Forall_heap_set (fun p => Process.processed_time p = 0));
        assumption.
  - apply Forall_cons in Hlive as [_ Hl].
    apply (Forall_heap_set
             (fun p => 0 < Process.ex_time p ->
                       Process.processed_time p < Process.ex_time p));
      assumption.
  - destruct pol; try exact I.
    + apply StronglySorted_cons in Hrs as [_ Hrs].
      apply (StronglySorted_heap_set ref_le);
        [exact ref_le_local|assumption|assumption].
    + apply StronglySorted_cons in Hrs as [_ Hrs].
      apply (StronglySorted_heap_set ref_le);
        [exact ref_le_local|assumption|assumption].
  - exact Hsl.
Qed.

Lemma advance_time_WFx xs s :
  WFx pol input xs s -> WFx pol input xs (advance_time s).
Proof. intros []. constructor; assumption. Qed.

Lemma on_process_done_WFx c s :
  WFx pol input [c] s ->
  Process.processed_time (heap s c) = Process.ex_time (heap s c) ->
  WF pol input (on_process_done c s).
Proof.
  intros [Hpol Hq Hst Hwp Hws Hcomp Hdone Hlimbo Hfresh Hlive Hrs Hsl] Hc.
  constructor;
    cbn [on_process_done log set_done_processes policy heap done_processes
         runnable waiting app]; try assumption.
  - rewrite <- Hq. cbn [app]. rewrite !app_assoc.
    symmetry. apply Permutation_cons_append.
  - apply Forall_app. split; [exact Hdone|]. constructor; [exact Hc|constructor].
  - constructor.
Qed.

Lemma requeue_WFx c s :
  WFx pol input [c] s ->
  match pol with RoundRobin _ | SRTF => True | _ => False end ->
  Process.is_done (heap s c) = false ->
  WF pol input (log (EvRequeue c) (add_runnable c s)).
Proof.
  intros [Hpol Hq Hst Hwp Hws Hcomp Hdone Hlimbo Hfresh Hlive Hrs Hsl] Hp Hc.
  constructor;
    cbn [add_runnable log set_runnable policy heap done_processes
         runnable waiting app]; try assumption.
  - rewrite <- Hq. cbn [app]. rewrite add_to_perm. reflexivity.
  - constructor.
  - destruct pol; try exact I; contradiction.
  - rewrite add_to_perm. cbn [app]. constructor; [|exact Hlive].
    intros _. unfold Process.is_done in Hc.
    rewrite Z.geb_leb in Hc. apply Z.leb_gt in Hc. exact Hc.
  - rewrite Hpol. destruct pol; try exact I; try contradiction.
    apply (add_to_sorted SRTF). exact Hrs.
Qed.

Lemma finish_or_requeue_WFx c s :
  WFx pol input [c] s ->
  match pol with RoundRobin _ | SRTF => True | _ => False end ->
  WF pol input (finish_or_requeue c s).
Proof.
  intros Hwf Hp. unfold finish_or_requeue.
  destruct (Process.is_done (heap s c)) eqn:E.
  - apply on_process_done_WFx; [exact Hwf|].
    pose proof (wf_limbo _ _ _ _ Hwf) as Hl.
    apply Forall_cons in Hl as [Hl _].
    unfold Process.is_done in E. rewrite Z.geb_leb in E.
    apply Z.leb_le in E. lia.
  - apply requeue_WFx; assumption.
Qed.

(** One step keeps the invariant. *)
Lemma step_WF s s' : WF pol input s -> step s = Ok s' -> WF pol input s'.
Proof.
  intros Hwf Hstep.
  pose proof (stall_WF pol input s Hwf) as Hwf0.
  pose proof (wfx_NoDup_pending _ _ _ _ Hwf0) as Hnd0.
  pose proof (wf_waiting_sorted _ _ _ _ Hwf0) as Hs0.
  assert (Hrtc : forall msg,
    match pol with FIFO | SJF => True | _ => False end ->
    step_run_to_completion msg s = Ok s' -> WF pol input s').
  { intros msg Hp H.
    apply step_run_to_completion_inv in H
      as (c & rest & Hrun & Hpos & Hproc & ->); try assumption.
    apply loops_WFx, advance_time_WFx, on_process_done_WFx.
    - apply run_WFx; assumption.
    - cbn. rewrite heap_set_eq. cbn.
      pose proof (wf_fresh _ _ _ _ Hwf0) as Hf. rewrite Hrun in Hf.
      assert (Process.processed_time (heap (base_get_next_process s) c) = 0)
        as Hz.
      { destruct pol; try contradiction;
          apply Forall_cons in Hf as [Hf _]; exact Hf. }
      unfold Process.time_left. lia. }
  assert (Hpre : forall quantum,
    match pol with RoundRobin _ | SRTF => True | _ => False end ->
    ('(c, s1) ← get_next_process s;
     let s1 := set_curr_process s1 c in
     '(_, s2) ← run_curr c (quantum c s1) s1;
     step_preemptive_end c s2) = Ok s' -> WF pol input s').
  { intros quantum Hp H.
    apply step_preemptive_inv in H
      as (c & rest & Hrun & Hq & _ & ->); try assumption.
    apply advance_time_WFx, finish_or_requeue_WFx; [|exact Hp].
    apply loops_WFx, run_WFx; assumption. }
  unfold step in Hstep. rewrite (wf_policy _ _ _ _ Hwf) in Hstep.
  destruct pol.
  - apply (Hrtc _ I Hstep).
  - apply (Hrtc _ I Hstep).
  - apply (Hpre (fun _ _ => time_slice) I Hstep).
  - apply (Hpre SRTF_ex_time I Hstep).
Qed.

End StepInvariant.

Section InitInvariant.

Import Scheduler.

Lemma heap_of_list_fresh input r :
  exists id ex a,
    heap_of_list (map process_of_spec input) r = Process.init id ex a.
Proof.
  unfold heap_of_list. revert r.
  induction input as [|[[id ex] a] l IH]; intros [|r]; cbn; eauto.
Qed.

Lemma heap_of_list_counters input r :
  let p := heap_of_list (map process_of_spec input) r in
  Process.processed_time p = 0 /\ Process.comp_time p = 0
  /\ Process.wait_time p = 0.
Proof.
  destruct (heap_of_list_fresh input r) as (id & ex & a & ->). cbn. auto.
Qed.

Lemma init_inv pol input s :
  fresh pol input = Ok s ->
  let h := heap_of_list (map process_of_spec input) in
  let refs := seq 0 (length input) in
  let rs := filter (fun r => Process.arrival_time (h r) <= 0) refs in
  let ws := filter (fun r => ~ Process.arrival_time (h r) <= 0) refs in
  match pol with RoundRobin time_slice => 0 < time_slice | _ => True end
  /\ s = mk pol h []
           (match pol with
            | SJF | SRTF => list_sort (ref_lt h) rs
            | _ => rs
            end)
           (list_sort (ref_lt h) ws) 0 None 0 [].
Proof.
  unfold fresh, init. rewrite length_map. intros H.
  destruct pol; cbn in H; try (injection H as <-; split; [exact I|reflexivity]).
  unfold py_assert in H.
  destruct (Z.gtb_spec time_slice 0); [|discriminate].
  cbn in H. injection H as <-. split; [lia|reflexivity].
Qed.

Lemma init_WF pol input s : fresh pol input = Ok s -> WF pol input s.
Proof.
  intros H. apply init_inv in H as [Hslice ->].
  set (h := heap_of_list (map process_of_spec input)).
  set (refs := seq 0 (length input)).
  set (rs := filter (fun r => Process.arrival_time (h r) <= 0) refs).
  set (ws := filter (fun r => ~ Process.arrival_time (h r) <= 0) refs).
  assert (Hz : forall r, Process.processed_time (h r) = 0
                         /\ Process.comp_time (h r) = 0
                         /\ Process.wait_time (h r) = 0)
    by (intros r; apply heap_of_list_counters).
  assert (Hrs : match pol with
                | SJF | SRTF => list_sort (ref_lt h) rs
                | _ => rs
                end ≡ₚ rs)
    by (destruct pol; try reflexivity; apply list_sort_perm).
  constructor; cbn [policy heap done_processes runnable waiting app].
  - reflexivity.
  - rewrite Hrs, list_sort_perm, app_nil_r. apply filter_app_complement.
  - intros r. split; reflexivity.
  - apply Forall_forall. intros r Hr. rewrite list_sort_perm in Hr.
    apply list_elem_of_filter in Hr as [Hr _]. lia.
  - eapply StronglySorted_ext_in; [|apply list_sort_sorted].
    intros x y _ _. apply ref_le_arrival.
  - intros r. destruct (Hz r) as (-> & -> & ->). reflexivity.
  - constructor.
  - constructor.
  - destruct pol; try exact I; apply Forall_forall; intros r _; apply Hz.
  - apply Forall_forall. intros r _ Hex. destruct (Hz r) as (-> & _). exact Hex.
  - destruct pol; try exact I; apply list_sort_sorted.
  - exact Hslice.
Qed.

(** Every state of a run satisfies the invariant. *)
Lemma reachable_WF pol input s : reachable pol input s -> WF pol input s.
Proof.
  induction 1 as [s H|s s' _ IH H].
  - apply init_WF, H.
  - eapply step_WF; eassumption.
Qed.

Lemma steps_WF pol input s s' :
  WF pol input s -> steps s s' -> WF pol input s'.
Proof.
  intros Hwf. induction 1 as [|s s' s'' _ IH H]; [exact Hwf|].
  eapply step_WF; [apply IH, Hwf|exact H].
Qed.

Lemma reachable_steps pol input s s' :
  reachable pol input s -> steps s s' -> reachable pol input s'.
Proof.
  intros Hr. induction 1 as [|s s' s'' _ IH H]; [exact Hr|].
  eapply reachable_step; [apply IH, Hr|exact H].
Qed.

End InitInvariant.

(** * The anatomy of a step *)

Section Anatomy.

Import Scheduler.

Variables (pol : Policy) (input : list Spec).

Lemma heap_selected c rest s0 : heap (selected c rest s0) = heap s0.
Proof. reflexivity. Qed.

Lemma ran_state_step_time_ran c q s :
  step_time_ran (ran_state c q s) = Z.min (Process.time_left (heap s c)) q.
Proof. reflexivity. Qed.

(** What a successful step did. *)
Lemma step_inv s s' :
  WF pol input s -> step s = Ok s' ->
  exists c rest,
    let s0 := base_get_next_process s in
    let s1 := selected c rest s0 in
    let s2 := ran_state c (quantum pol c s1) s1 in
    runnable s0 = c :: rest
    /\ 0 < quantum pol c s1
    /\ (rest ++ waiting s0 <> [] -> 0 <= step_time_ran s2)
    /\ match pol with
       | FIFO | SJF => Process.processed_time (heap s0 c) = 0
       | _ => True
       end
    /\ s' = step_end pol c s2.
Proof.
  intros Hwf Hstep.
  pose proof (stall_WF pol input s Hwf) as Hwf0.
  pose proof (wfx_NoDup_pending _ _ _ _ Hwf0) as Hnd0.
  pose proof (wf_waiting_sorted _ _ _ _ Hwf0) as Hs0.
  pose proof (wf_fresh _ _ _ _ Hwf0) as Hf.
  unfold step in Hstep. rewrite (wf_policy _ _ _ _ Hwf) in Hstep.
  destruct pol as [| |time_slice|].
  - apply step_run_to_completion_inv in Hstep
      as (c & rest & Hrun & Hpos & _ & ->); try assumption.
    exists c, rest. rewrite Hrun in Hf. apply Forall_cons in Hf as [Hz _].
    unfold quantum, step_end. rewrite heap_selected.
    split; [exact Hrun|]. split; [exact Hpos|].
    split; [|split; [exact Hz|reflexivity]].
    intros _. rewrite ran_state_step_time_ran, heap_selected.
    unfold Process.time_left. lia.
  - apply step_run_to_completion_inv in Hstep
      as (c & rest & Hrun & Hpos & _ & ->); try assumption.
    exists c, rest. rewrite Hrun in Hf. apply Forall_cons in Hf as [Hz _].
    unfold quantum, step_end. rewrite heap_selected.
    split; [exact Hrun|]. split; [exact Hpos|].
    split; [|split; [exact Hz|reflexivity]].
    intros _. rewrite ran_state_step_time_ran, heap_selected.
    unfold Process.time_left. lia.
  - apply (step_preemptive_inv (fun _ _ => time_slice)) in Hstep
      as (c & rest & Hrun & Hq & Hd & ->); try assumption.
    exists c, rest. unfold quantum, step_end. auto.
  - apply (step_preemptive_inv SRTF_ex_time) in Hstep
      as (c & rest & Hrun & Hq & Hd & ->); try assumption.
    exists c, rest. unfold quantum, step_end. auto.
Qed.

(** When a step succeeds. *)
Lemma step_ok s c rest :
  let s0 := base_get_next_process s in
  let s1 := selected c rest s0 in
  let s2 := ran_state c (quantum pol c s1) s1 in
  WF pol input s ->
  runnable s0 = c :: rest ->
  0 < quantum pol c s1 ->
  0 <= step_time_ran s2 ->
  step s = Ok (step_end pol c s2).
Proof.
  intros s0 s1 s2 Hwf Hrun Hq Hd.
  pose proof (stall_WF pol input s Hwf) as Hwf0.
  pose proof (wfx_NoDup_pending _ _ _ _ Hwf0) as Hnd0.
  pose proof (wf_waiting_sorted _ _ _ _ Hwf0) as Hs0.
  pose proof (wf_fresh _ _ _ _ Hwf0) as Hf.
  unfold step. rewrite (wf_policy _ _ _ _ Hwf).
  subst s2 s1. fold s0 in Hnd0, Hs0, Hf.
  destruct pol as [| |time_slice|]; unfold quantum, step_end in *.
  - rewrite heap_selected in *. rewrite Hrun in Hf.
    apply Forall_cons in Hf as [Hz _].
    apply step_run_to_completion_ok; assumption.
  - rewrite heap_selected in *. rewrite Hrun in Hf.
    apply Forall_cons in Hf as [Hz _].
    apply step_run_to_completion_ok; assumption.
  - apply (step_preemptive_ok (fun _ _ => time_slice)); assumption.
  - apply (step_preemptive_ok SRTF_ex_time); assumption.
Qed.

End Anatomy.

(** * Further properties: the order of processes and the constructors *)

(** X1: [Process.__lt__] compares by arrival time, then by execution time; it
    is a strict weak order: irreflexive, asymmetric, transitive, with a
    transitive complement, and two processes that it does not order either
    way have the same arrival time and the same execution time. *)
Theorem X1_lt_strict_weak_order (p q r : Process.t) :
  Process.lt p p = false
  /\ (Process.lt p q = true -> Process.lt q p = false)
  /\ (Process.lt p q = true -> Process.lt q r = true -> Process.lt p r = true)
  /\ (Process.lt p q = false -> Process.lt q r = false -> Process.lt p r = false)
  /\ (Process.lt p q = false -> Process.lt q p = false ->
      Process.arrival_time p = Process.arrival_time q
      /\ Process.ex_time p = Process.ex_time q).
Proof.
  rewrite !Process_lt_true, !Process_lt_false. lia.
Qed.

Section Constructors.

Import Scheduler.

Lemma Scheduler_init_inv pol processes s :
  init pol processes = Ok s ->
  let h := heap_of_list processes in
  let refs := seq 0 (length processes) in
  let rs := filter (fun r => Process.arrival_time (h r) <= 0) refs in
  let ws := filter (fun r => ~ Process.arrival_time (h r) <= 0) refs in
  match pol with RoundRobin time_slice => 0 < time_slice | _ => True end
  /\ s = mk pol h []
           (match pol with
            | SJF | SRTF => list_sort (ref_lt h) rs
            | _ => rs
            end)
           (list_sort (ref_lt h) ws) 0 None 0 [].
Proof.
  unfold init. intros H.
  destruct pol; cbn in H; try (injection H as <-; split; [exact I|reflexivity]).
  unfold py_assert in H.
  destruct (Z.gtb_spec time_slice 0); [|discriminate].
  cbn in H. injection H as <-. split; [lia|reflexivity].
Qed.

(** X2: the constructor puts every process of its argument in exactly one of
    the two queues: those with [arrival_time <= 0] in the runnable queue,
    the others in the waiting queue; nothing is done yet, the clock is 0 and
    there is no current process. *)
Theorem X2_init_partition (pol : Policy) (processes : list Process.t)
    (s : Scheduler.t) :
  init pol processes = Ok s ->
  runnable s ++ waiting s ≡ₚ seq 0 (length processes)
  /\ heap s = heap_of_list processes
  /\ Forall (fun r => Process.arrival_time (heap s r) <= 0) (runnable s)
  /\ Forall (fun r => 0 < Process.arrival_time (heap s r)) (waiting s)
  /\ done_processes s = [] /\ time s = 0 /\ curr_process s = None.
Proof.
  intros H. apply Scheduler_init_inv in H as [_ ->].
  cbn [heap runnable waiting done_processes time curr_process].
  set (h := heap_of_list processes).
  set (rs := filter _ _). set (ws := filter _ _).
  assert (Hrs : match pol with
                | SJF | SRTF => list_sort (ref_lt h) rs
                | _ => rs
                end ≡ₚ rs)
    by (destruct pol; try reflexivity; apply list_sort_perm).
  split; [rewrite Hrs, list_sort_perm; apply filter_app_complement|].
  split; [reflexivity|]. split; [|split; [|auto]].
  - rewrite Hrs. apply Forall_forall. intros r Hr.
    apply list_elem_of_filter in Hr as [Hr _]. exact Hr.
  - apply Forall_forall. intros r Hr. rewrite list_sort_perm in Hr.
    apply list_elem_of_filter in Hr as [Hr _]. lia.
Qed.

Lemma X2_init_partition_witness :
  exists s, init FIFO [Process.init "A" 2 0; Process.init "B" 1 7] = Ok s
            /\ runnable s ++ waiting s ≡ₚ [0; 1]%nat.
Proof.
  eexists. split; [reflexivity|].
  apply (X2_init_partition FIFO [Process.init "A" 2 0; Process.init "B" 1 7]).
  reflexivity.
Defined.

End Constructors.

Section ConstructorOrder.

Import Scheduler.

Lemma sort_insert_stable h x l :
  Forall (fun y => (x < y)%nat) l ->
  StronglySorted (stable_le h) l ->
  StronglySorted (stable_le h) (sort_insert (ref_lt h) x l).
Proof.
  induction l as [|y l IH]; cbn; intros Hx Hs.
  - repeat constructor.
  - apply Forall_cons in Hx as [Hxy Hx].
    apply StronglySorted_cons in Hs as [Hy Hl].
    destruct (ref_lt h y x) eqn:E.
    + apply StronglySorted_cons. split; [|auto].
      rewrite sort_insert_perm. constructor; [|exact Hy].
      split; [apply ref_lt_le, E|].
      intros Hle. unfold ref_le in Hle. congruence.
    + apply StronglySorted_cons. split.
      * constructor; [split; [exact E|intros _; exact Hxy]|].
        rewrite Forall_forall in *. intros z Hz.
        destruct (Hy z Hz) as [Hyz _].
        split; [|intros _; apply Hx, Hz].
        pose proof (ref_le_trans h) as Ht. transitivity y; [exact E|exact Hyz].
      * apply StronglySorted_cons. auto.
Qed.

Lemma list_sort_stable h l :
  StronglySorted lt l ->
  StronglySorted (stable_le h) (list_sort (ref_lt h) l).
Proof.
  induction l as [|x l IH]; cbn; intros Hs; [constructor|].
  apply StronglySorted_cons in Hs as [Hx Hl].
  apply sort_insert_stable; [|auto].
  apply Forall_forall. intros y Hy. rewrite list_sort_perm in Hy.
  rewrite Forall_forall in Hx. auto.
Qed.

Lemma seq_sorted j n : StronglySorted lt (seq j n).
Proof.
  revert j. induction n as [|n IH]; intros j; cbn; [constructor|].
  apply StronglySorted_cons. split; [|apply IH].
  apply Forall_forall. intros y Hy. apply elem_of_seq in Hy. lia.
Qed.

(** X3: after construction the waiting queue is in the order of [__lt__]
    (arrival time, then execution time), processes with equal keys in the
    order of the argument list; so is the runnable queue of an SJF or SRTF
    scheduler, while the runnable queue of a FIFO or Round-Robin scheduler is
    in the order of the argument list. *)
Theorem X3_init_order (pol : Policy) (processes : list Process.t)
    (s : Scheduler.t) :
  init pol processes = Ok s ->
  StronglySorted (stable_le (heap s)) (waiting s)
  /\ match pol with
     | SJF | SRTF => StronglySorted (stable_le (heap s)) (runnable s)
     | FIFO | RoundRobin _ => StronglySorted lt (runnable s)
     end.
Proof.
  intros H. apply Scheduler_init_inv in H as [_ ->].
  cbn [heap runnable waiting].
  assert (Hf : forall (P : ref -> Prop) `{forall x, Decision (P x)},
             StronglySorted lt (filter P (seq 0 (length processes)))).
  { intros P HP. apply StronglySorted_filter, seq_sorted. }
  split; [apply list_sort_stable, Hf|].
  destruct pol; first [apply list_sort_stable, Hf | apply Hf].
Qed.

Lemma X3_init_order_witness :
  exists s,
    init SJF [Process.init "A" 5 0; Process.init "B" 3 0; Process.init "C" 3 0]
    = Ok s
    /\ runnable s = [1; 2; 0]%nat
    /\ StronglySorted (stable_le (heap s)) (runnable s).
Proof.
  eexists. split; [reflexivity|]. split; [reflexivity|].
  apply (X3_init_order SJF
           [Process.init "A" 5 0; Process.init "B" 3 0; Process.init "C" 3 0]).
  reflexivity.
Defined.

(** X4: the constructor of a Round-Robin scheduler fails on its assertion
    exactly when [time_slice <= 0]; the constructors of the three other
    classes always succeed. *)
Theorem X4_init_time_slice (pol : Policy) (processes : list Process.t) :
  match pol with
  | RoundRobin time_slice =>
      (time_slice <= 0 ->
       init pol processes
       = Err (AssertionError "Round Robin time slice must be positive"))
      /\ (0 < time_slice -> exists s, init pol processes = Ok s)
  | _ => exists s, init pol processes = Ok s
  end.
Proof.
  destruct pol; try (eexists; reflexivity).
  unfold init, py_assert. split; intros H.
  - replace (time_slice >? 0) with false; [reflexivity|].
    symmetry. rewrite Z.gtb_ltb. apply Z.ltb_ge. exact H.
  - replace (time_slice >? 0) with true; [eexists; reflexivity|].
    symmetry. rewrite Z.gtb_ltb. apply Z.ltb_lt. exact H.
Qed.

End ConstructorOrder.

(** * Further properties: selection and insertion *)

Section Selection.

Import Scheduler.

Lemma is_done_true s : is_done s = true <-> runnable s = [] /\ waiting s = [].
Proof.
  unfold is_done. rewrite andb_true_iff, !Nat.eqb_eq.
  destruct (runnable s), (waiting s); cbn; intuition congruence.
Qed.

Lemma is_done_false s : is_done s = false <-> runnable s <> [] \/ waiting s <> [].
Proof.
  unfold is_done. rewrite andb_false_iff, !Nat.eqb_neq.
  destruct (runnable s), (waiting s); cbn; intuition congruence.
Qed.

Lemma step_unfold s :
  step s =
  match get_next_process s with
  | Ok (c, s1) =>
      match policy s with
      | FIFO =>
          match run_curr c (Process.ex_time (heap s1 c)) (set_curr_process s1 c) with
          | Ok (time_leftover, s2) =>
              if time_leftover =? 0
              then loops (advance_time (on_process_done c s2))
              else Err (AssertionError "FIFO Should not interrupt running processes")
          | Err e => Err e
          end
      | SJF =>
          match run_curr c (Process.ex_time (heap s1 c)) (set_curr_process s1 c) with
          | Ok (time_leftover, s2) =>
              if time_leftover =? 0
              then loops (advance_time (on_process_done c s2))
              else Err (AssertionError "SJF Should not interrupt running processes")
          | Err e => Err e
          end
      | RoundRobin time_slice =>
          match run_curr c time_slice (set_curr_process s1 c) with
          | Ok (_, s2) => step_preemptive_end c s2
          | Err e => Err e
          end
      | SRTF =>
          match run_curr c (SRTF_ex_time c (set_curr_process s1 c))
                  (set_curr_process s1 c) with
          | Ok (_, s2) => step_preemptive_end c s2
          | Err e => Err e
          end
      end
  | Err e => Err e
  end.
Proof.
  unfold step.
  destruct (policy s).
  - unfold FIFO_step. rewrite step_run_to_completion_unfold.
    destruct (get_next_process s) as [[c s1]|]; reflexivity.
  - unfold SJF_step. rewrite step_run_to_completion_unfold.
    destruct (get_next_process s) as [[c s1]|]; reflexivity.
  - unfold RoundRobin_step.
    destruct (get_next_process s) as [[c s1]|]; [|reflexivity].
    cbn [mbind Result_bind].
    destruct (run_curr c time_slice (set_curr_process s1 c)) as [[l s2]|];
      reflexivity.
  - unfold SRTF_step.
    destruct (get_next_process s) as [[c s1]|]; [|reflexivity].
    cbn [mbind Result_bind].
    destruct (run_curr c _ (set_curr_process s1 c)) as [[l s2]|]; reflexivity.
Qed.

(** X5: a step of any of the four classes taken when both queues are empty
    fails with [IndexError] ([self.runnable[0]] on an empty list); when a
    queue is not empty the selection succeeds and returns the head of the
    runnable queue or, the runnable queue being empty, the head of the waiting
    queue. *)
Theorem X5_selection (s : Scheduler.t) :
  (is_done s = true ->
   get_next_process s = Err IndexError /\ step s = Err IndexError)
  /\ (is_done s = false ->
      exists c s1,
        get_next_process s = Ok (c, s1)
        /\ (head (runnable s) = Some c
            \/ (runnable s = [] /\ head (waiting s) = Some c))).
Proof.
  split.
  - intros H. apply is_done_true in H as [Hr Hw].
    assert (E : get_next_process s = Err IndexError).
    { unfold get_next_process.
      rewrite base_get_next_process_id by (right; exact Hw).
      rewrite Hr. reflexivity. }
    split; [exact E|]. rewrite step_unfold, E. reflexivity.
  - intros H. apply is_done_false in H.
    destruct (base_get_next_process_cases s)
      as [(Hr & w & ws & Hw & E)|[Hc E]].
    + exists w, (set_runnable (stall_state w ws s) []). split.
      * apply get_next_process_inv. exists []. rewrite E. auto.
      * right. rewrite Hw. auto.
    + destruct (runnable s) as [|c rest] eqn:Hr.
      { destruct Hc as [Hc|Hc]; [congruence|]. destruct H; congruence. }
      exists c, (set_runnable s rest). split; [|left; reflexivity].
      apply get_next_process_inv. exists rest. rewrite E. auto.
Qed.

End Selection.

Section Insertion.

Import Scheduler.

Lemma bisect_right_position h a x :
  StronglySorted (ref_le h) a ->
  let i := bisect_right (ref_lt h) a x in
  Forall (fun y => ref_lt h x y = false) (take i a)
  /\ Forall (fun y => ref_lt h x y = true) (drop i a).
Proof.
  intros Hs i. subst i. unfold bisect_right.
  destruct (bisect_loop_spec (ref_lt h x) a) with
    (fuel := length a) (lo := 0%nat) (hi := length a) as (_ & Hbefore & Hafter).
  - intros j k yj yk Hjk Hj Hk Hlt.
    destruct (decide (j = k)) as [->|Hne]; [congruence|].
    eapply ref_lt_le_trans; [exact Hlt|].
    rewrite <- (take_drop_middle a j yj Hj) in Hs, Hk.
    apply StronglySorted_app in Hs as (_ & _ & Hs).
    apply StronglySorted_cons in Hs as [Hall _].
    rewrite Forall_forall in Hall. apply Hall.
    rewrite lookup_app_r in Hk by (rewrite length_take; lia).
    rewrite length_take in Hk.
    replace (k - j `min` length a)%nat with (S (k - j - 1)) in Hk
      by (apply lookup_lt_Some in Hj; lia).
    cbn in Hk. eapply list_elem_of_lookup_2, Hk.
  - lia.
  - lia.
  - intros; lia.
  - intros j y Hj Hy. apply lookup_ge_None_2 in Hj. congruence.
  - split; apply Forall_forall; intros y Hy;
      apply list_elem_of_lookup_1 in Hy as [j Hj].
    + apply lookup_take_Some in Hj as [Hj Hji]. apply (Hbefore j y Hji Hj).
    + rewrite lookup_drop in Hj. eapply Hafter; [|exact Hj]. lia.
Qed.

(** X6: [add_runnable] of an SJF or SRTF scheduler ([bisect.insort]) called
    on a runnable queue that is in the order of [__lt__] splits the queue in
    two, the processes that are not greater than the new one and those that
    are greater, and puts the new process between them: the queue stays in
    order, and the new process goes behind the queued processes with the same
    arrival and execution times. *)
Theorem X6_add_runnable_insort (s : Scheduler.t) (x : ref) :
  policy s = SJF \/ policy s = SRTF ->
  StronglySorted (ref_le (heap s)) (runnable s) ->
  exists before after,
    runnable s = before ++ after
    /\ runnable (add_runnable x s) = before ++ x :: after
    /\ Forall (fun y => ref_lt (heap s) x y = false) before
    /\ Forall (fun y => ref_lt (heap s) x y = true) after
    /\ StronglySorted (ref_le (heap s)) (runnable (add_runnable x s))
    /\ heap (add_runnable x s) = heap s
    /\ waiting (add_runnable x s) = waiting s.
Proof.
  intros Hp Hs.
  destruct (bisect_right_position (heap s) (runnable s) x Hs) as [Hb Ha].
  set (i := bisect_right (ref_lt (heap s)) (runnable s) x) in *.
  exists (take i (runnable s)), (drop i (runnable s)).
  assert (E : runnable (add_runnable x s)
              = take i (runnable s) ++ x :: drop i (runnable s)).
  { unfold add_runnable. cbn [runnable set_runnable].
    destruct Hp as [-> | ->]; reflexivity. }
  split; [symmetry; apply take_drop|]. split; [exact E|].
  split; [exact Hb|]. split; [exact Ha|].
  split; [|split; reflexivity].
  unfold add_runnable. cbn [runnable set_runnable].
  destruct Hp as [-> | ->]; apply insort_sorted, Hs.
Qed.

Lemma X6_add_runnable_insort_witness :
  exists s,
    init SJF [Process.init "A" 5 0; Process.init "B" 3 0; Process.init "C" 3 7]
    = Ok s
    /\ runnable s = [1; 0]%nat
    /\ exists before after,
         runnable s = before ++ after
         /\ runnable (add_runnable 2%nat s) = before ++ 2%nat :: after.
Proof.
  eexists. split; [reflexivity|]. split; [reflexivity|].
  match goal with |- context [add_runnable _ ?s] =>
    destruct (X6_add_runnable_insort s 2%nat) as (b & a & H1 & H2 & _)
  end.
  - left. reflexivity.
  - apply (list_sort_sorted _ [0; 1]%nat).
  - exists b, a. split; [exact H1|exact H2].
Defined.

End Insertion.

(** * Further properties: what a run keeps *)

Section StepEnd.

Import Scheduler.

Lemma step_end_heap pol c s2 :
  heap (step_end pol c s2) = heap (loops_state s2).
Proof.
  unfold step_end, finish_or_requeue.
  destruct pol; try reflexivity;
    destruct (Process.is_done (heap (loops_state s2) c)); reflexivity.
Qed.


Lemma step_end_step_time_ran pol c s2 :
  step_time_ran (step_end pol c s2) = step_time_ran s2.
Proof.
  unfold step_end, finish_or_requeue.
  destruct pol; try reflexivity;
    destruct (Process.is_done (heap (loops_state s2) c)); reflexivity.
Qed.

Lemma step_end_time pol c s2 :
  time (step_end pol c s2) = time s2 + step_time_ran s2.
Proof.
  unfold step_end, finish_or_requeue.
  destruct pol; try reflexivity;
    destruct (Process.is_done (heap (loops_state s2) c)); reflexivity.
Qed.

Lemma step_end_runnable pol c s2 :
  runnable (step_end pol c s2)
  = match pol with
    | FIFO | SJF => runnable (loops_state s2)
    | _ =>
        if Process.is_done (heap (loops_state s2) c)
        then runnable (loops_state s2)
        else add_to (policy s2) (heap (loops_state s2))
               (runnable (loops_state s2)) c
    end.
Proof.
  unfold step_end, finish_or_requeue.
  destruct pol; try reflexivity;
    destruct (Process.is_done (heap (loops_state s2) c)); reflexivity.
Qed.

Lemma step_end_done pol c s2 :
  done_processes (step_end pol c s2)
  = match pol with
    | FIFO | SJF => done_processes s2 ++ [c]
    | _ =>
        if Process.is_done (heap (loops_state s2) c)
        then done_processes s2 ++ [c]
        else done_processes s2
    end.
Proof.
  unfold step_end, finish_or_requeue.
  destruct pol; try reflexivity;
    destruct (Process.is_done (heap (loops_state s2) c)); reflexivity.
Qed.

End StepEnd.

Section RunInvariants.

Import Scheduler.

(** A state a FIFO scheduler reaches on the scenario: after its first step. *)
Lemma scenario_step :
  exists s, reachable FIFO scenario s /\ done_processes s = [0%nat]
            /\ runnable s = [1; 2]%nat /\ time s = 5.
Proof.
  destruct (step (mk FIFO (heap_of_list (map process_of_spec scenario)) []
                    [0; 1; 2]%nat [] 0 None 0 [])) as [s1|] eqn:E;
    [|vm_compute in E; discriminate].
  exists s1. split.
  - eapply reachable_step; [apply reachable_init; reflexivity|exact E].
  - vm_compute in E. injection E as <-. auto.
Defined.



(** X8: at every point of a run the waiting queue holds processes whose
    remaining arrival time is positive, in ascending order of it; so its head
    is a process that arrives first. *)
Theorem X8_waiting_queue (pol : Policy) (input : list Spec) (s : Scheduler.t) :
  reachable pol input s ->
  Forall (fun r => 0 < Process.arrival_time (heap s r)) (waiting s)
  /\ StronglySorted (arrival_le (heap s)) (waiting s)
  /\ (forall w ws, waiting s = w :: ws ->
        Forall (fun r => Process.arrival_time (heap s w)
                         <= Process.arrival_time (heap s r)) ws).
Proof.
  intros H. apply reachable_WF in H.
  split; [apply (wf_waiting_pos _ _ _ _ H)|].
  split; [apply (wf_waiting_sorted _ _ _ _ H)|].
  intros w ws Hw. pose proof (wf_waiting_sorted _ _ _ _ H) as Hs.
  rewrite Hw in Hs. apply StronglySorted_cons in Hs as [Hs _]. exact Hs.
Qed.

Lemma X8_waiting_queue_witness :
  exists s, reachable FIFO [("A", 2, 5); ("B", 1, 7); ("C", 1, 6)] s
            /\ waiting s = [0; 2; 1]%nat
            /\ StronglySorted (arrival_le (heap s)) (waiting s).
Proof.
  eexists. split; [apply reachable_init; reflexivity|].
  split; [reflexivity|].
  refine (proj1 (proj2 (X8_waiting_queue FIFO
            [("A", 2, 5); ("B", 1, 7); ("C", 1, 6)] _ _))).
  apply reachable_init. reflexivity.
Defined.

(** X9: at every point of a run of an SJF or SRTF scheduler the runnable
    queue is in the order of [__lt__], so that the process selected next, its
    head, is not greater than any other runnable process. *)
Theorem X9_runnable_sorted (pol : Policy) (input : list Spec) (s : Scheduler.t) :
  pol = SJF \/ pol = SRTF ->
  reachable pol input s ->
  StronglySorted (ref_le (heap s)) (runnable s)
  /\ (forall c rest, runnable s = c :: rest ->
        Forall (fun r => Process.lt (heap s r) (heap s c) = false) rest).
Proof.
  intros Hp H. apply reachable_WF in H.
  assert (Hs : StronglySorted (ref_le (heap s)) (runnable s)).
  { pose proof (wf_runnable_sorted _ _ _ _ H) as Hs.
    destruct Hp as [-> | ->]; exact Hs. }
  split; [exact Hs|]. intros c rest Hr. rewrite Hr in Hs.
  apply StronglySorted_cons in Hs as [Hs _]. exact Hs.
Qed.

Lemma X9_runnable_sorted_witness :
  exists s, reachable SJF scenario s /\ runnable s = [1; 0; 2]%nat
            /\ StronglySorted (ref_le (heap s)) (runnable s).
Proof.
  eexists. split; [apply reachable_init; reflexivity|].
  split; [reflexivity|].
  refine (proj1 (X9_runnable_sorted SJF scenario _ _ _)).
  - left. reflexivity.
  - apply reachable_init. reflexivity.
Defined.

(** X10: no step changes the id or the execution time of a process: at
    every point of a run they are those of the input. *)
Theorem X10_static_attributes (pol : Policy) (input : list Spec)
    (s : Scheduler.t) (r : ref) :
  reachable pol input s ->
  Process.pid (heap s r) = Process.pid (heap_of_list (map process_of_spec input) r)
  /\ Process.ex_time (heap s r)
     = Process.ex_time (heap_of_list (map process_of_spec input) r).
Proof.
  intros H. apply reachable_WF in H. apply (wf_static _ _ _ _ H).
Qed.

Lemma X10_static_attributes_witness :
  exists s, reachable FIFO scenario s
            /\ Process.pid (heap s 0%nat) = "P1"
            /\ Process.ex_time (heap s 0%nat) = 5.
Proof.
  destruct scenario_step as (s & Hr & _).
  exists s. split; [exact Hr|].
  apply (X10_static_attributes FIFO scenario s 0%nat Hr).
Defined.

End RunInvariants.

Section Progress.

Import Scheduler.

Variables (pol : Policy) (input : list Spec).
Hypothesis Hvalid : valid_input input.

Lemma process_of_spec_ex_time (d : Spec) :
  Process.ex_time (process_of_spec d) = snd (fst d).
Proof. destruct d as [[id ex] a]. reflexivity. Qed.

Lemma valid_ex_time s r :
  WF pol input s ->
  r ∈ runnable s ++ waiting s ++ done_processes s ->
  0 < Process.ex_time (heap s r).
Proof.
  intros Hwf Hr.
  rewrite (wf_queues _ _ _ _ Hwf) in Hr. cbn [app] in Hr.
  apply elem_of_seq in Hr as [_ Hr]. cbn in Hr.
  destruct (wf_static _ _ _ _ Hwf r) as [_ ->].
  unfold heap_of_list.
  change (Process.init "" 0 0) with (process_of_spec ("", 0, 0)).
  rewrite map_nth.
  pose proof (proj1 (Forall_nth _ ("", 0, 0) input) Hvalid r Hr) as Hex.
  rewrite process_of_spec_ex_time. exact Hex.
Qed.

(** The process a step is about to run has time left, and the step asks
    for a positive quantum. *)
Lemma selected_live s c rest :
  WF pol input s ->
  runnable s = c :: rest ->
  0 < Process.time_left (heap s c)
  /\ 0 < quantum pol c (selected c rest s).
Proof.
  intros Hwf Hrun.
  assert (Hex : 0 < Process.ex_time (heap s c)).
  { apply valid_ex_time; [exact Hwf|]. rewrite Hrun. left. }
  assert (Hleft : 0 < Process.time_left (heap s c)).
  { pose proof (wf_live _ _ _ _ Hwf) as Hl. rewrite Hrun in Hl.
    apply Forall_cons in Hl as [Hl _]. specialize (Hl Hex).
    unfold Process.time_left. lia. }
  split; [exact Hleft|].
  unfold quantum. rewrite heap_selected.
  pose proof (wf_slice _ _ _ _ Hwf) as Hsl.
  pose proof (wf_waiting_pos _ _ _ _ Hwf) as Hwp.
  destruct pol; try assumption.
  unfold SRTF_ex_time. rewrite heap_selected.
  change (waiting (selected c rest s)) with (waiting s).
  destruct (waiting s) as [|w ws]; [exact Hleft|].
  apply Forall_cons in Hwp as [Hw _].
  cbn [length Nat.ltb Nat.leb].
  destruct (Process.time_left (heap s c)
            >? Process.arrival_time (heap s w) + Process.time_left (heap s w));
    assumption.
Qed.

Lemma not_done_selects s :
  is_done s = false ->
  exists c rest, runnable (base_get_next_process s) = c :: rest.
Proof.
  intros H. apply is_done_false in H.
  destruct (base_get_next_process_cases s)
    as [(Hr & w & ws & Hw & ->)|[Hc ->]].
  - exists w, []. reflexivity.
  - destruct (runnable s) as [|c rest]; [|eauto].
    destruct Hc as [Hc|Hc]; [congruence|]. destruct H; congruence.
Qed.

(** X11: on an input whose execution times are all positive no step of a run
    fails: as long as a queue is not empty, [step] raises neither an
    assertion ([run], [wait], [wait_arrival], the FIFO and SJF check of the
    leftover) nor [IndexError]. *)
Theorem X11_step_succeeds (s : Scheduler.t) :
  reachable pol input s ->
  is_done s = false ->
  exists s', step s = Ok s'.
Proof.
  intros Hr Hnd. apply reachable_WF in Hr as Hwf.
  pose proof (stall_WF pol input s Hwf) as Hwf0.
  destruct (not_done_selects s Hnd) as (c & rest & Hrun).
  destruct (selected_live _ c rest Hwf0 Hrun) as [Hleft Hq].
  eexists. apply (step_ok pol input s c rest Hwf Hrun Hq).
  rewrite ran_state_step_time_ran, heap_selected. lia.
Qed.

(** X12: on such an input a step advances the clock by the stall, if the
    runnable queue was empty, and by the time the selected process ran,
    which is positive: the clock strictly increases. *)
Theorem X12_clock_advances (s s' : Scheduler.t) :
  reachable pol input s ->
  step s = Ok s' ->
  let stall :=
    match runnable s, waiting s with
    | [], w :: _ => Process.arrival_time (heap s w)
    | _, _ => 0
    end in
  time s' = time s + stall + step_time_ran s'
  /\ 0 <= stall /\ 0 < step_time_ran s' /\ time s < time s'.
Proof.
  intros Hr Hstep stall. apply reachable_WF in Hr as Hwf.
  pose proof (stall_WF pol input s Hwf) as Hwf0.
  destruct (step_inv pol input s s' Hwf Hstep)
    as (c & rest & Hrun & Hq & _ & _ & ->).
  destruct (selected_live _ c rest Hwf0 Hrun) as [Hleft _].
  rewrite step_end_time, step_end_step_time_ran, ran_state_step_time_ran.
  rewrite heap_selected.
  change (time (ran_state c _ (selected c rest (base_get_next_process s))))
    with (time (base_get_next_process s)).
  assert (Ht : time (base_get_next_process s) = time s + stall /\ 0 <= stall).
  { subst stall. pose proof (wf_waiting_pos _ _ _ _ Hwf) as Hwp.
    destruct (base_get_next_process_cases s)
      as [(Hr0 & w & ws & Hw & ->)|[Hc ->]].
    - rewrite Hr0, Hw. rewrite Hw in Hwp.
      apply Forall_cons in Hwp as [Hwpos _]. cbn. lia.
    - destruct (runnable s) as [|x l]; [|lia].
      destruct Hc as [Hc|Hc]; [congruence|]. rewrite Hc. lia. }
  destruct Ht as [-> Hst]. lia.
Qed.

End Progress.

Lemma scenario_valid : valid_input scenario.
Proof. repeat constructor. Qed.

Lemma scenario_step_not_done s :
  Scheduler.runnable s = [1; 2]%nat -> Scheduler.is_done s = false.
Proof. intros H. unfold Scheduler.is_done. rewrite H. reflexivity. Qed.

Lemma X11_step_succeeds_witness :
  exists s s', reachable FIFO scenario s /\ Scheduler.step s = Ok s'.
Proof.
  destruct scenario_step as (s & Hr & Hd & Hrun & _).
  destruct (X11_step_succeeds FIFO scenario scenario_valid s Hr
              (scenario_step_not_done s Hrun)) as [s' Hs'].
  exists s, s'. split; [exact Hr|exact Hs'].
Defined.

Lemma scenario_two_steps :
  exists s s', reachable FIFO scenario s /\ Scheduler.step s = Ok s'.
Proof.
  destruct (Scheduler.step
              (Scheduler.mk FIFO (heap_of_list (map process_of_spec scenario)) []
                 [0; 1; 2]%nat [] 0 None 0 [])) as [s1|] eqn:E1;
    [|vm_compute in E1; discriminate].
  destruct (Scheduler.step s1) as [s2|] eqn:E2.
  - exists s1, s2. split; [|exact E2].
    eapply reachable_step; [apply reachable_init; reflexivity|exact E1].
  - vm_compute in E1. injection E1 as <-. vm_compute in E2. discriminate.
Defined.

Lemma X12_clock_advances_witness :
  exists s s', reachable FIFO scenario s /\ Scheduler.step s = Ok s'
               /\ Scheduler.time s < Scheduler.time s'.
Proof.
  destruct scenario_two_steps as (s & s' & Hr & Hs).
  exists s, s'. split; [exact Hr|]. split; [exact Hs|].
  apply (X12_clock_advances FIFO scenario scenario_valid s s' Hr Hs).
Defined.

(** * Further properties: a run terminates *)

Section Termination.

Import Scheduler.

Lemma total_left_app h a b :
  total_left h (a ++ b) = total_left h a + total_left h b.
Proof.
  unfold total_left. induction a as [|x a IH]; cbn; [reflexivity|].
  rewrite IH. lia.
Qed.




Variables (pol : Policy) (input : list Spec).
Hypothesis Hvalid : valid_input input.

Lemma pending_live s :
  WF pol input s ->
  Forall (fun r => 0 < Process.time_left (heap s r)) (runnable s ++ waiting s).
Proof.
  intros Hwf. pose proof (wf_live _ _ _ _ Hwf) as Hl.
  rewrite Forall_forall in *. intros r Hr.
  assert (Hex : 0 < Process.ex_time (heap s r)).
  { eapply valid_ex_time; try eassumption.
    rewrite app_assoc. apply elem_of_app. left. exact Hr. }
  specialize (Hl r Hr Hex). unfold Process.time_left. lia.
Qed.



End Termination.

Section RunTerminates.

Import Scheduler.

Variables (pol : Policy) (input : list Spec).
Hypothesis Hvalid : valid_input input.





End RunTerminates.


(** * Further properties: the methods of a process *)

Section ProcessLaws.

Import Process.

(** X14: [run(running_time)] with a positive argument hands back
    [(time_ran, time_leftover)] with [time_ran + time_leftover = running_time];
    the process is charged [time_ran] and nothing else changes.  When the
    process has time left, [time_ran] is the smaller of that time and the
    argument, both results are non-negative, and the process is done
    afterwards exactly when the argument covers the time left.  On a process
    with no time left [run] changes nothing and returns the whole argument
    as leftover.  With an argument that is not positive it fails. *)
Theorem X14_run (p : t) (running_time : Z) :
  (0 < running_time ->
   exists p' time_ran time_leftover,
     run p running_time = Ok (p', (time_ran, time_leftover))
     /\ time_ran + time_leftover = running_time
     /\ processed_time p' = processed_time p + time_ran
     /\ comp_time p' = comp_time p + time_ran
     /\ time_left p' = time_left p - time_ran
     /\ wait_time p' = wait_time p /\ arrival_time p' = arrival_time p
     /\ ex_time p' = ex_time p /\ pid p' = pid p
     /\ (0 <= time_left p ->
         0 <= time_ran <= running_time /\ 0 <= time_leftover
         /\ 0 <= time_left p'
         /\ (is_done p' = true <-> time_left p <= running_time))
     /\ (time_left p = 0 -> p' = p /\ time_ran = 0 /\ time_leftover = running_time))
  /\ (running_time <= 0 ->
      run p running_time = Err (AssertionError "Process running_time must be > 0")).
Proof.
  split; [|apply run_err].
  intros Hpos. rewrite run_ok by exact Hpos.
  eexists _, _, _. split; [reflexivity|].
  unfold time_left, is_done. cbn -[Z.min]. unfold time_left.
  do 8 (split; [first [reflexivity|lia]|]). split.
  - intros Hleft. do 3 (split; [lia|]).
    rewrite Z.geb_le. lia.
  - intros Hz. rewrite Hz.
    rewrite Z.min_l by lia.
    split; [|lia]. unfold ran, time_left. rewrite Hz, Z.min_l by lia.
    rewrite !Z.add_0_r. destruct p; reflexivity.
Qed.

(** X15: a freshly constructed process with a positive execution time is not
    done and its [completion_time] cannot be read (the assertion of the
    accessor fails); once it has waited [d >= 0] and has run for its execution
    time it is done, and [completion_time] is [ex + d]. *)
Theorem X15_completion_time (id : string) (ex arrival d : Z) :
  0 < ex -> 0 <= d ->
  is_done (init id ex arrival) = false
  /\ completion_time (init id ex arrival)
     = Err (AssertionError "cannot get completion time for ongoing process")
  /\ exists p1 p2,
       wait (init id ex arrival) d = Ok p1
       /\ run p1 ex = Ok (p2, (ex, 0))
       /\ is_done p2 = true
       /\ completion_time p2 = Ok (ex + d)
       /\ wait_time p2 = d.
Proof.
  intros Hex Hd.
  assert (Hnd : is_done (init id ex arrival) = false).
  { unfold is_done. cbn. rewrite Z.geb_leb. apply Z.leb_gt. lia. }
  split; [exact Hnd|]. split.
  { unfold completion_time, py_assert. rewrite Hnd. reflexivity. }
  set (p1 := waited (init id ex arrival) d).
  set (p2 := ran p1 ex).
  assert (Hm : Z.min (time_left p1) ex = ex).
  { subst p1. unfold time_left, waited, init. cbn -[Z.min]. lia. }
  assert (Hdone : is_done p2 = true).
  { subst p2. unfold is_done, ran. cbn -[Z.min time_left]. rewrite Hm.
    apply Z.geb_le. subst p1. cbn. lia. }
  exists p1, p2. split; [apply wait_ok; exact Hd|].
  split; [rewrite run_ok by exact Hex; rewrite Hm, Z.sub_diag; reflexivity|].
  split; [exact Hdone|]. split; [|subst p2 p1; cbn; lia].
  unfold completion_time, py_assert. rewrite Hdone. cbn [mbind Result_bind].
  subst p2. unfold ran. cbn -[Z.min time_left]. rewrite Hm.
  subst p1. cbn. f_equal. lia.
Qed.

Lemma X15_completion_time_witness :
  completion_time (init "P" 4 0)
  = Err (AssertionError "cannot get completion time for ongoing process").
Proof.
  apply (X15_completion_time "P" 4 0 3); lia.
Defined.

(** X16: time is additive for the three mutating methods: waiting, waiting
    for the arrival, or running for [d1] and then for [d2] leaves the process
    in the state that one call with [d1 + d2] leaves it in; the flag of the
    single [wait_arrival] is that of the second call, and the time ran by
    the single [run] is the sum of the two. *)
Theorem X16_durations_add (p : t) (d1 d2 : Z) :
  (0 <= d1 -> 0 <= d2 ->
   (exists p1 p2,
      wait p d1 = Ok p1 /\ wait p1 d2 = Ok p2 /\ wait p (d1 + d2) = Ok p2)
   /\ (exists p1 p2 b1 b2,
         wait_arrival p d1 = Ok (p1, b1) /\ wait_arrival p1 d2 = Ok (p2, b2)
         /\ wait_arrival p (d1 + d2) = Ok (p2, b2)
         /\ (b1 = true -> b2 = true)))
  /\ (0 < d1 -> 0 < d2 ->
      exists p1 p2 ran1 left1 ran2 left2,
        run p d1 = Ok (p1, (ran1, left1)) /\ run p1 d2 = Ok (p2, (ran2, left2))
        /\ run p (d1 + d2) = Ok (p2, (ran1 + ran2, left1 + left2))).
Proof.
  split.
  - intros H1 H2. split.
    + exists (waited p d1), (waited (waited p d1) d2).
      rewrite !wait_ok by lia. repeat (split; [reflexivity|]).
      unfold waited. cbn. f_equal. f_equal; lia.
    + exists (arrived p d1), (arrived (arrived p d1) d2).
      eexists _, _. rewrite !wait_arrival_ok by lia.
      repeat (split; [reflexivity|]). split.
      * assert (E : arrived p (d1 + d2) = arrived (arrived p d1) d2).
        { unfold arrived. cbn -[Z.min]. f_equal; lia. }
        rewrite E. reflexivity.
      * rewrite !Z.eqb_eq. cbn -[Z.min]. lia.
  - intros H1 H2.
    exists (ran p d1), (ran (ran p d1) d2). eexists _, _, _, _.
    rewrite !run_ok by lia. repeat (split; [reflexivity|]).
    assert (E : ran p (d1 + d2) = ran (ran p d1) d2).
    { unfold ran, time_left. cbn -[Z.min]. f_equal; lia. }
    rewrite E. f_equal. f_equal. unfold time_left. cbn -[Z.min].
    unfold time_left. f_equal; lia.
Qed.

Lemma X16_durations_add_witness :
  exists p1 p2,
    wait (init "P" 4 3) 2 = Ok p1 /\ wait p1 5 = Ok p2
    /\ wait (init "P" 4 3) (2 + 5) = Ok p2.
Proof.
  apply (proj1 (X16_durations_add (init "P" 4 3) 2 5)); lia.
Defined.

End ProcessLaws.

(** * Further properties: which process SJF and SRTF select *)

Section ShortestJob.

Import Scheduler.

Variables (pol : Policy) (input : list Spec).
Hypothesis Harrival : Forall (fun d : Spec => 0 <= snd d) input.

Lemma process_of_spec_arrival_time (d : Spec) :
  Process.arrival_time (process_of_spec d) = snd d.
Proof. destruct d as [[id ex] a]. reflexivity. Qed.

Lemma init_arrived_queue s : fresh pol input = Ok s -> arrived_queue s.
Proof.
  intros H. apply init_inv in H as [_ ->]. split; cbn [heap runnable].
  - intros r. unfold heap_of_list.
    change (Process.init "" 0 0) with (process_of_spec ("", 0, 0)).
    rewrite map_nth.
    destruct (Nat.lt_ge_cases r (length input)) as [Hr|Hr].
    + pose proof (proj1 (Forall_nth _ ("", 0, 0) input) Harrival r Hr) as Ha.
      rewrite process_of_spec_arrival_time. exact Ha.
    + rewrite nth_overflow by exact Hr. cbn. lia.
  - set (rs := filter _ _).
    assert (Hrs : match pol with
                  | SJF | SRTF =>
                      list_sort (ref_lt (heap_of_list (map process_of_spec input))) rs
                  | _ => rs
                  end ≡ₚ rs)
      by (destruct pol; try reflexivity; apply list_sort_perm).
    rewrite Hrs. apply Forall_forall. intros r Hr.
    apply list_elem_of_filter in Hr as [Hr _]. exact Hr.
Qed.

Lemma stall_arrived_queue s :
  WF pol input s -> arrived_queue s -> arrived_queue (base_get_next_process s).
Proof.
  intros Hwf [Hall Hrun].
  destruct (base_get_next_process_cases s)
    as [(Hr & w & ws & Hw & ->)|[_ ->]]; [|split; assumption].
  split; cbn [stall_state heap runnable].
  - intros r. unfold heap_set.
    destruct (Nat.eqb_spec r w); [cbn; lia|apply Hall].
  - constructor; [|constructor]. rewrite heap_set_eq. cbn. lia.
Qed.

Lemma step_arrived_queue s s' :
  WF pol input s -> arrived_queue s -> step s = Ok s' -> arrived_queue s'.
Proof.
  intros Hwf Hj Hstep.
  pose proof (stall_WF pol input s Hwf) as Hwf0.
  apply (stall_arrived_queue s Hwf) in Hj as [Hall Hrunq].
  destruct (step_inv pol input s s' Hwf Hstep)
    as (c & rest & Hrun & Hq & _ & _ & ->).
  set (s0 := base_get_next_process s) in *.
  set (q := quantum pol c (selected c rest s0)) in *.
  set (s2 := ran_state c q (selected c rest s0)).
  pose proof (run_WFx pol input s0 c rest q Hwf0 Hrun) as Hwf2. fold s2 in Hwf2.
  pose proof (wfx_NoDup_pending _ _ _ _ Hwf2) as Hnd2.
  pose proof (wfx_NoDup _ _ _ _ Hwf2) as Hnd.
  apply NoDup_cons in Hnd as [Hc _].
  assert (Hc' : c ∉ runnable s2 ++ waiting s2).
  { intros Hin. apply Hc. rewrite app_assoc. apply elem_of_app. left. exact Hin. }
  assert (Hs2 : forall r, Process.arrival_time (heap s2 r)
                          = Process.arrival_time (heap s0 r)).
  { intros r. change (heap s2) with (heap_set (heap s0) c (Process.ran (heap s0 c) q)).
    unfold heap_set. destruct (Nat.eqb_spec r c) as [->|]; reflexivity. }
  rewrite Hrun in Hrunq. apply Forall_cons in Hrunq as [Hcq Hrestq].
  assert (Hloop : Forall (fun r => Process.arrival_time (heap (loops_state s2) r) <= 0)
                    (runnable (loops_state s2))).
  { rewrite (loops_runnable_perm s2 Hnd2). apply Forall_app. split.
    - apply Forall_forall. intros r Hr.
      rewrite loops_heap_runnable by assumption.
      change (runnable s2) with rest in Hr. rewrite Forall_forall in Hrestq.
      unfold Process.waited. cbn [Process.arrival_time]. rewrite Hs2. auto.
    - apply Forall_forall. intros r Hr.
      apply list_elem_of_filter in Hr as [Ha Hr].
      rewrite loops_heap_waiting by assumption.
      unfold arrives in Ha. unfold Process.arrived.
      cbn [Process.arrival_time]. lia. }
  split.
  - intros r. rewrite step_end_heap.
    apply (heap_update_all_pred (fun p => 0 <= Process.arrival_time p)).
    { intros p Hp. cbn. lia. }
    apply (heap_update_all_pred (fun p => 0 <= Process.arrival_time p)).
    { intros p Hp. exact Hp. }
    intros r'. rewrite Hs2. apply Hall.
  - rewrite step_end_runnable, step_end_heap.
    assert (Hrequeue :
      Forall (fun r => Process.arrival_time (heap (loops_state s2) r) <= 0)
        (add_to (policy s2) (heap (loops_state s2)) (runnable (loops_state s2)) c)).
    { rewrite add_to_perm. constructor; [|exact Hloop].
      rewrite loops_heap_other by exact Hc'. rewrite Hs2. exact Hcq. }
    destruct pol; try exact Hloop;
      destruct (Process.is_done (heap (loops_state s2) c)); assumption.
Qed.

Lemma reachable_arrived_queue s : reachable pol input s -> arrived_queue s.
Proof.
  induction 1 as [s H|s s' Hr IH H].
  - apply init_arrived_queue, H.
  - eapply step_arrived_queue; [apply reachable_WF, Hr|exact IH|exact H].
Qed.

(** X17: when no arrival time of the input is negative, the process that an
    SJF or an SRTF scheduler selects next, the head of its runnable queue,
    has the least execution time of the runnable processes: the total
    execution time [ex_time], also for SRTF, whatever part of it a preempted
    process has already run. *)
Theorem X17_least_ex_time (s : Scheduler.t) (c : ref) (rest : list ref) :
  pol = SJF \/ pol = SRTF ->
  reachable pol input s ->
  runnable s = c :: rest ->
  Forall (fun r => Process.arrival_time (heap s r) = 0) (runnable s)
  /\ Forall (fun r => Process.ex_time (heap s c) <= Process.ex_time (heap s r)) rest.
Proof.
  intros Hp Hr Hrun.
  destruct (reachable_arrived_queue s Hr) as [Hall Hq].
  assert (Hzero : Forall (fun r => Process.arrival_time (heap s r) = 0) (runnable s)).
  { rewrite Forall_forall in *. intros r Hin.
    specialize (Hq r Hin). specialize (Hall r). lia. }
  split; [exact Hzero|].
  assert (Hs : StronglySorted (ref_le (heap s)) (runnable s)).
  { pose proof (wf_runnable_sorted _ _ _ _ (reachable_WF _ _ _ Hr)) as Hs.
    destruct Hp as [E|E]; rewrite E in Hs; exact Hs. }
  rewrite Hrun in Hs. apply StronglySorted_cons in Hs as [Hhead _].
  rewrite Hrun in Hzero. apply Forall_cons in Hzero as [Hc0 Hrest0].
  rewrite Forall_forall in *. intros r Hin.
  specialize (Hhead r Hin). specialize (Hrest0 r Hin).
  apply ref_le_iff in Hhead. lia.
Qed.

End ShortestJob.

Lemma X17_least_ex_time_witness :
  exists s, reachable SJF scenario s
            /\ Scheduler.runnable s = [1; 0; 2]%nat
            /\ Forall (fun r => Process.ex_time (Scheduler.heap s 1%nat)
                                <= Process.ex_time (Scheduler.heap s r))
                 [0; 2]%nat.
Proof.
  eexists. split; [apply reachable_init; reflexivity|].
  split; [reflexivity|].
  refine (proj2 (X17_least_ex_time SJF scenario _ _ 1%nat [0; 2]%nat _ _ _)).
  - repeat constructor; cbn; lia.
  - left. reflexivity.
  - apply reachable_init. reflexivity.
  - reflexivity.
Defined.

(** * Further properties: the counters of a process *)

Section Counters.

Import Scheduler.

Variables (pol : Policy) (input : list Spec).
Hypothesis Hvalid : valid_input input.

(** What a step does to the counters of any process. *)
Lemma step_counters s s' r :
  WF pol input s -> step s = Ok s' ->
  Process.wait_time (heap s r) <= Process.wait_time (heap s' r)
  /\ Process.processed_time (heap s r) <= Process.processed_time (heap s' r)
  /\ Process.arrival_time (heap s' r) <= Process.arrival_time (heap s r)
     `max` 0.
Proof.
  intros Hwf Hstep.
  pose proof (stall_WF pol input s Hwf) as Hwf0.
  destruct (step_inv pol input s s' Hwf Hstep)
    as (c & rest & Hrun & Hq & _ & _ & ->).
  destruct (selected_live pol input Hvalid _ c rest Hwf0 Hrun) as [Hleft _].
  set (s0 := base_get_next_process s) in *.
  set (q := quantum pol c (selected c rest s0)) in *.
  set (s2 := ran_state c q (selected c rest s0)).
  pose proof (run_WFx pol input s0 c rest q Hwf0 Hrun) as Hwf2. fold s2 in Hwf2.
  pose proof (wfx_NoDup_pending _ _ _ _ Hwf2) as Hnd2.
  pose proof (wf_waiting_pos _ _ _ _ Hwf2) as Hwp2.
  assert (Hd : 0 < step_time_ran s2).
  { subst s2. rewrite ran_state_step_time_ran, heap_selected. lia. }
  (* the stall *)
  assert (H0 : Process.wait_time (heap s0 r) = Process.wait_time (heap s r)
               /\ Process.processed_time (heap s0 r)
                  = Process.processed_time (heap s r)
               /\ Process.arrival_time (heap s0 r)
                  <= Process.arrival_time (heap s r) `max` 0).
  { subst s0. destruct (base_get_next_process_cases s)
      as [(Hr & w & ws & Hw & ->)|[_ ->]]; [|repeat split; lia].
    cbn [stall_state heap]. unfold heap_set.
    destruct (Nat.eqb_spec r w) as [->|]; cbn; repeat split; lia. }
  (* the run *)
  assert (H2 : Process.wait_time (heap s2 r) = Process.wait_time (heap s0 r)
               /\ Process.processed_time (heap s0 r)
                  <= Process.processed_time (heap s2 r)
               /\ Process.arrival_time (heap s2 r)
                  = Process.arrival_time (heap s0 r)).
  { change (heap s2) with (heap_set (heap s0) c (Process.ran (heap s0 c) q)).
    unfold heap_set. destruct (Nat.eqb_spec r c) as [->|];
      [|repeat split; lia].
    unfold Process.ran. cbn -[Z.min]. repeat split; lia. }
  (* the two loops *)
  assert (H4 : Process.wait_time (heap s2 r)
               <= Process.wait_time (heap (loops_state s2) r)
               /\ Process.arrival_time (heap (loops_state s2) r)
                  <= Process.arrival_time (heap s2 r) `max` 0).
  { destruct (decide (r ∈ runnable s2)) as [Hr|Hr].
    - rewrite loops_heap_runnable by assumption.
      unfold Process.waited. cbn [Process.wait_time Process.arrival_time]. lia.
    - destruct (decide (r ∈ waiting s2)) as [Hw|Hw].
      + rewrite loops_heap_waiting by assumption.
        unfold Process.arrived.
        cbn [Process.wait_time Process.arrival_time]. lia.
      + rewrite loops_heap_other; [lia|].
        rewrite elem_of_app. tauto. }
  rewrite step_end_heap, loops_processed_time. lia.
Qed.

(** X18: on an input whose execution times are all positive a step never
    takes time back: for every process, [wait_time] and the processed time
    do not decrease, and a remaining arrival time that is positive does not
    increase. *)
Theorem X18_counters_monotone (s s' : Scheduler.t) (r : ref) :
  reachable pol input s -> step s = Ok s' ->
  Process.wait_time (heap s r) <= Process.wait_time (heap s' r)
  /\ Process.processed_time (heap s r) <= Process.processed_time (heap s' r)
  /\ Process.arrival_time (heap s' r) <= Process.arrival_time (heap s r) `max` 0.
Proof.
  intros Hr Hstep. apply step_counters; [apply reachable_WF, Hr|exact Hstep].
Qed.

(** X19: on such an input, at every point of a run and for every process of
    the input, the processed time is between 0 and the execution time, the
    wait time is not negative, and the completion counter is their sum. *)
Theorem X19_counters_bounds (s : Scheduler.t) (r : ref) :
  reachable pol input s ->
  (r < length input)%nat ->
  0 <= Process.processed_time (heap s r) <= Process.ex_time (heap s r)
  /\ 0 <= Process.wait_time (heap s r)
  /\ Process.comp_time (heap s r)
     = Process.wait_time (heap s r) + Process.processed_time (heap s r).
Proof.
  intros Hr Hlt.
  assert (Hlow : 0 <= Process.processed_time (heap s r)
                 /\ 0 <= Process.wait_time (heap s r)).
  { induction Hr as [s H|s s' Hr IH H].
    - apply init_inv in H as [_ ->]. cbn [heap].
      destruct (heap_of_list_counters input r) as (-> & _ & ->). lia.
    - pose proof (step_counters s s' r (reachable_WF _ _ _ Hr) H). lia. }
  apply reachable_WF in Hr as Hwf.
  split; [|split; [tauto|apply (wf_comp _ _ _ _ Hwf)]].
  split; [tauto|].
  assert (Hin : r ∈ runnable s ++ waiting s ++ done_processes s).
  { rewrite (wf_queues _ _ _ _ Hwf). apply elem_of_seq. lia. }
  rewrite app_assoc in Hin. apply elem_of_app in Hin as [Hin|Hin].
  - pose proof (pending_live pol input Hvalid s Hwf) as Hl.
    rewrite Forall_forall in Hl. specialize (Hl r Hin).
    unfold Process.time_left in Hl. lia.
  - pose proof (wf_done _ _ _ _ Hwf) as Hdn.
    rewrite Forall_forall in Hdn. specialize (Hdn r Hin). lia.
Qed.

End Counters.

Lemma X18_counters_monotone_witness :
  exists s s', reachable FIFO scenario s /\ Scheduler.step s = Ok s'
    /\ Process.wait_time (Scheduler.heap s 2%nat)
       <= Process.wait_time (Scheduler.heap s' 2%nat).
Proof.
  destruct scenario_two_steps as (s & s' & Hr & Hs).
  exists s, s'. split; [exact Hr|]. split; [exact Hs|].
  apply (X18_counters_monotone FIFO scenario scenario_valid s s' 2%nat Hr Hs).
Defined.

Lemma X19_counters_bounds_witness :
  exists s, reachable FIFO scenario s
    /\ 0 <= Process.processed_time (Scheduler.heap s 0%nat)
       <= Process.ex_time (Scheduler.heap s 0%nat).
Proof.
  destruct scenario_step as (s & Hr & _).
  exists s. split; [exact Hr|].
  apply (X19_counters_bounds FIFO scenario scenario_valid s 0%nat Hr).
  cbn. lia.
Defined.

(** * Further properties: first come, first served *)

Section FifoOrder.

Import Scheduler.

Variable input : list Spec.
Hypothesis Harrived : Forall (fun d : Spec => snd d <= 0) input.




End FifoOrder.


(** * Further properties: where the time goes *)

Section Accounting.

Import Scheduler.








End Accounting.

Section AccountingInvariant.

Import Scheduler.

Variables (pol : Policy) (input : list Spec).





End AccountingInvariant.


(** * scheduler.py: the listeners *)
Section ListenerHooks.

Import Observers.

Context {L : Type}.
Implicit Types (o : Observers.t L) (fs : list L).

Lemma call_all_calls fs : forall o,
  calls (call_all fs o) = calls o ++ map (fun f => (f, curr_process o)) fs
  /\ verbose (call_all fs o) = verbose o
  /\ curr_process (call_all fs o) = curr_process o
  /\ done_processes (call_all fs o) = done_processes o
  /\ step_end_listeners (call_all fs o) = step_end_listeners o
  /\ process_done_listeners (call_all fs o) = process_done_listeners o
  /\ process_arrive_listeners (call_all fs o) = process_arrive_listeners o.
Proof.
  induction fs as [|f fs IH]; intros o; cbn [call_all map].
  - rewrite app_nil_r. repeat split.
  - destruct (IH (call f o)) as (-> & -> & -> & -> & -> & -> & ->).
    cbn. rewrite <- app_assoc. repeat split.
Qed.

Lemma register_step_all fs : forall o,
  let o' := foldl (fun o f => register_step_listener f o) o fs in
  step_end_listeners o' = step_end_listeners o ++ fs
  /\ verbose o' = verbose o
  /\ curr_process o' = curr_process o
  /\ calls o' = calls o.
Proof.
  induction fs as [|f fs IH]; intros o; cbn [foldl].
  - rewrite app_nil_r. repeat split.
  - destruct (IH (register_step_listener f o)) as (-> & -> & -> & ->).
    cbn. rewrite <- app_assoc. repeat split.
Qed.

Lemma register_arrive_all fs : forall o,
  let o' := foldl (fun o f => register_process_arrive_listener f o) o fs in
  process_arrive_listeners o' = process_arrive_listeners o ++ fs
  /\ verbose o' = verbose o
  /\ curr_process o' = curr_process o
  /\ calls o' = calls o.
Proof.
  induction fs as [|f fs IH]; intros o; cbn [foldl].
  - rewrite app_nil_r. repeat split.
  - destruct (IH (register_process_arrive_listener f o)) as (-> & -> & -> & ->).
    cbn. rewrite <- app_assoc. repeat split.
Qed.

Lemma register_done_all fs : forall o,
  let o' := foldl (fun o f => register_process_done_listener f o) o fs in
  process_done_listeners o' = process_done_listeners o ++ fs
  /\ verbose o' = verbose o
  /\ curr_process o' = curr_process o
  /\ done_processes o' = done_processes o
  /\ calls o' = calls o.
Proof.
  induction fs as [|f fs IH]; intros o; cbn [foldl].
  - rewrite app_nil_r. repeat split.
  - destruct (IH (register_process_done_listener f o)) as (-> & -> & -> & -> & ->).
    cbn. rewrite <- app_assoc. repeat split.
Qed.

(** X22: the step-end hook and the arrival hook call their listeners only
    when [verbose] is larger than 1.  Then the listeners registered so far
    are called once each, in the order of their registration, with the
    current process; at a lower setting nothing is called.  Registering
    listeners calls none of them. *)
Theorem X22_step_listeners o fs :
  let o1 := foldl (fun o f => register_step_listener f o) o fs in
  let o2 := foldl (fun o f => register_process_arrive_listener f o) o fs in
  calls o1 = calls o /\ calls o2 = calls o
  /\ calls (on_step_end o1)
     = calls o ++ (if 1 <? verbose o
                   then map (fun f => (f, curr_process o))
                            (step_end_listeners o ++ fs)
                   else [])
  /\ calls (on_process_arrive o2)
     = calls o ++ (if 1 <? verbose o
                   then map (fun f => (f, curr_process o))
                            (process_arrive_listeners o ++ fs)
                   else []).
Proof.
  intros o1 o2.
  destruct (register_step_all fs o) as (Hl1 & Hv1 & Hc1 & Hk1).
  destruct (register_arrive_all fs o) as (Hl2 & Hv2 & Hc2 & Hk2).
  fold o1 in Hl1, Hv1, Hc1, Hk1. fold o2 in Hl2, Hv2, Hc2, Hk2.
  split; [exact Hk1|]. split; [exact Hk2|].
  unfold on_step_end, on_process_arrive. rewrite Hv1, Hv2.
  rewrite (Z.ltb_antisym (verbose o) 1).
  destruct (verbose o <=? 1); cbn [negb].
  - rewrite app_nil_r. split; assumption.
  - split.
    + destruct (call_all_calls (step_end_listeners o1) o1) as (-> & _).
      rewrite Hk1, Hc1, Hl1. reflexivity.
    + destruct (call_all_calls (process_arrive_listeners o2) o2) as (-> & _).
      rewrite Hk2, Hc2, Hl2. reflexivity.
Qed.

(** X23: the process-done hook appends the current process to the list of
    finished processes at every setting of [verbose], and calls its
    listeners only when [verbose] is larger than 0: then each registered
    listener once, in the order of registration, with the current
    process. *)
Theorem X23_done_listeners o fs :
  let o1 := foldl (fun o f => register_process_done_listener f o) o fs in
  done_processes (on_process_done o1) = done_processes o ++ [curr_process o]
  /\ calls (on_process_done o1)
     = calls o ++ (if 0 <? verbose o
                   then map (fun f => (f, curr_process o))
                            (process_done_listeners o ++ fs)
                   else []).
Proof.
  intros o1.
  destruct (register_done_all fs o) as (Hl & Hv & Hc & Hd & Hk).
  fold o1 in Hl, Hv, Hc, Hd, Hk.
  unfold on_process_done.
  cbn [verbose curr_process done_processes process_done_listeners].
  rewrite Hv, (Z.ltb_antisym (verbose o) 0).
  destruct (verbose o <=? 0); cbn [negb].
  - cbn [done_processes calls]. rewrite app_nil_r, Hd, Hc, Hk. split; reflexivity.
  - match goal with |- context [call_all ?l ?x] =>
      destruct (call_all_calls l x) as (-> & _ & _ & -> & _) end.
    cbn [done_processes calls curr_process]. rewrite Hd, Hc, Hk, Hl.
    split; reflexivity.
Qed.

End ListenerHooks.

(** * The class of a scheduler object does not change *)
Section PolicyFrame.

Import Scheduler.

Lemma wait_loop_policy rs : forall s s',
  wait_loop rs s = Ok s' -> policy s' = policy s.
Proof.
  induction rs as [|r rs IH]; intros s s' H; cbn [wait_loop] in H.
  - injection H as <-. reflexivity.
  - destruct (wait_body r s) as [s1|] eqn:E; [|discriminate].
    cbn [mbind Result_bind] in H. rewrite (IH _ _ H).
    unfold wait_body in E.
    destruct (Process.wait _ _) as [p|]; [|discriminate].
    injection E as <-. reflexivity.
Qed.

Lemma arrival_loop_policy ws : forall s s',
  arrival_loop ws s = Ok s' -> policy s' = policy s.
Proof.
  induction ws as [|r ws IH]; intros s s' H; cbn [arrival_loop] in H.
  - injection H as <-. reflexivity.
  - destruct (arrival_body r s) as [s1|] eqn:E; [|discriminate].
    cbn [mbind Result_bind] in H. rewrite (IH _ _ H).
    unfold arrival_body in E.
    destruct (Process.wait_arrival _ _) as [[p []]|]; try discriminate;
      injection E as <-; reflexivity.
Qed.

Lemma loops_policy_frame s s' : loops s = Ok s' -> policy s' = policy s.
Proof.
  unfold loops. intros H.
  destruct (wait_loop (runnable s) s) as [s1|] eqn:E; [|discriminate].
  cbn [mbind Result_bind] in H.
  rewrite (arrival_loop_policy _ _ _ H). exact (wait_loop_policy _ _ _ E).
Qed.

Lemma base_get_next_process_policy s :
  policy (base_get_next_process s) = policy s.
Proof.
  unfold base_get_next_process.
  destruct (_ && _); [|reflexivity].
  destruct (waiting s); reflexivity.
Qed.

Lemma run_curr_policy c q s l s' :
  run_curr c q s = Ok (l, s') -> policy s' = policy s.
Proof.
  unfold run_curr. intros H.
  destruct (Process.run _ _) as [[p [a b]]|]; [|discriminate].
  injection H as _ <-. reflexivity.
Qed.

Lemma finish_or_requeue_policy c s : policy (finish_or_requeue c s) = policy s.
Proof. unfold finish_or_requeue. destruct (Process.is_done _); reflexivity. Qed.

Lemma step_policy s s' : step s = Ok s' -> policy s' = policy s.
Proof.
  rewrite step_unfold. intros H.
  destruct (get_next_process s) as [[c s1]|] eqn:E; [|discriminate].
  apply get_next_process_inv in E as (rest & _ & ->).
  assert (Hp : forall q l s2,
             run_curr c q (set_curr_process
                             (set_runnable (base_get_next_process s) rest) c)
             = Ok (l, s2) -> policy s2 = policy s).
  { intros q l s2 Hr. rewrite (run_curr_policy _ _ _ _ _ Hr).
    cbn [set_curr_process set_runnable policy].
    apply base_get_next_process_policy. }
  destruct (policy s) eqn:Ep.
  1, 2:
    destruct (run_curr _ _ _) as [[l s2]|] eqn:Er; [|discriminate];
    destruct (l =? 0); [|discriminate];
    rewrite (loops_policy_frame _ _ H); cbn [advance_time on_process_done log
      set_time set_done_processes policy]; exact (Hp _ _ _ Er).
  all: destruct (run_curr _ _ _) as [[l s2]|] eqn:Er; [|discriminate].
  all: unfold step_preemptive_end in H.
  all: destruct (loops s2) as [s3|] eqn:El; [|discriminate].
  all: cbn [mbind Result_bind] in H; injection H as <-.
  all: cbn [advance_time log set_time policy].
  all: rewrite finish_or_requeue_policy, (loops_policy_frame _ _ El).
  all: exact (Hp _ _ _ Er).
Qed.

Lemma run_loop_policy fuel : forall s s',
  run_loop fuel s = Ok s' -> policy s' = policy s.
Proof.
  induction fuel as [|n IH]; intros s s' H; cbn [run_loop] in H;
    destruct (is_done s).
  1, 3: injection H as <-; reflexivity.
  - discriminate.
  - destruct (step s) as [s1|] eqn:E; [|discriminate].
    cbn [mbind Result_bind] in H.
    rewrite (IH _ _ H). exact (step_policy _ _ E).
Qed.

Lemma run_policy fuel s s' st :
  run fuel s = Ok (s', st) -> policy s' = policy s.
Proof.
  unfold run. intros H.
  destruct (run_loop fuel s) as [s1|] eqn:E; [|discriminate].
  cbn [mbind Result_bind] in H.
  destruct (sum_stats _ _ _) as [[[c w] n]|]; [|discriminate].
  cbn [mbind Result_bind] in H.
  destruct (true_div c n); [|discriminate]. cbn [mbind Result_bind] in H.
  destruct (true_div w n); [|discriminate]. cbn [mbind Result_bind] in H.
  injection H as <- _. exact (run_loop_policy _ _ _ E).
Qed.

End PolicyFrame.

(** * simulator.py: [compare] *)
Section Dictionary.

Import Simulator.

Context {V : Type}.
Implicit Types (d : Dict V) (k : string) (v : V).

Lemma dict_get_set_eq k v d : dict_get k (dict_set k v d) = Some v.
Proof.
  induction d as [|[k' v'] d IH]; cbn [dict_set dict_get].
  - rewrite String.eqb_refl. reflexivity.
  - destruct (String.eqb k k') eqn:E; cbn [dict_get]; rewrite ?String.eqb_refl, ?E;
      auto.
Qed.

Lemma dict_get_set_ne k k' v d :
  k' <> k -> dict_get k' (dict_set k v d) = dict_get k' d.
Proof.
  intros Hne. induction d as [|[k2 v2] d IH]; cbn [dict_set dict_get].
  - destruct (String.eqb_spec k' k); [contradiction|reflexivity].
  - destruct (String.eqb_spec k k2) as [<-|]; cbn [dict_get].
    + destruct (String.eqb_spec k' k); [contradiction|reflexivity].
    + rewrite IH. reflexivity.
Qed.

Lemma dict_set_keys k v d :
  map fst (dict_set k v d)
  = map fst d ++ (if in_dec string_dec k (map fst d) then [] else [k]).
Proof.
  induction d as [|[k2 v2] d IH]; cbn [dict_set map fst app].
  - destruct (in_dec _ _ _) as [[]|]; reflexivity.
  - destruct (String.eqb_spec k k2) as [<-|Hne]; cbn [map fst].
    + destruct (in_dec string_dec k (k :: map fst d)) as [|n];
        [rewrite app_nil_r; reflexivity|].
      exfalso. apply n. left. reflexivity.
    + rewrite IH. f_equal.
      destruct (in_dec string_dec k (map fst d)),
               (in_dec string_dec k (k2 :: map fst d)) as [[|]|n'];
        try reflexivity; exfalso; try congruence; try contradiction.
      apply n'. right. assumption.
Qed.

Lemma dict_set_In k v d t :
  In t (map fst (dict_set k v d)) <-> t = k \/ In t (map fst d).
Proof.
  rewrite dict_set_keys, in_app_iff.
  destruct (in_dec string_dec k (map fst d)); cbn [In]; intuition congruence.
Qed.

Lemma dict_set_NoDup k v d :
  List.NoDup (map fst d) -> List.NoDup (map fst (dict_set k v d)).
Proof.
  intros H. rewrite dict_set_keys.
  destruct (in_dec string_dec k (map fst d)) as [|n]; [rewrite app_nil_r; exact H|].
  apply NoDup_ListNoDup, NoDup_app. split; [apply NoDup_ListNoDup, H|].
  split; [|apply NoDup_singleton].
  intros x Hx Hk. apply list_elem_of_singleton in Hk as ->.
  apply n, list_elem_of_In, Hx.
Qed.

End Dictionary.

Section Compare.

Import Scheduler Simulator.

Lemma scheduler_run_title fuel s s' t e :
  scheduler_run fuel s = Ok (s', (t, e)) ->
  t = title (policy s)
  /\ time_slice e = match policy s with RoundRobin ts => Some ts | _ => None end
  /\ run fuel s = Ok (s', stats e).
Proof.
  unfold scheduler_run. intros H.
  destruct (run fuel s) as [[s1 st]|] eqn:E; [|discriminate].
  cbn [mbind Result_bind] in H. injection H as <- <- <-.
  rewrite (run_policy _ _ _ _ E). auto.
Qed.

Lemma compare_loop_inv fuel schedulers : forall history history',
  compare_loop fuel schedulers history = Ok history' ->
  List.NoDup (map fst history) ->
  List.NoDup (map fst history')
  /\ (forall t, In t (map fst history') <->
        In t (map fst history) \/ In t (map (fun s => title (policy s)) schedulers))
  /\ (forall t, ~ In t (map (fun s => title (policy s)) schedulers) ->
        dict_get t history' = dict_get t history)
  /\ (forall i s, schedulers !! i = Some s ->
        exists s' e,
          scheduler_run fuel s = Ok (s', (title (policy s), e))
          /\ ((forall j s2, (i < j)%nat -> schedulers !! j = Some s2 ->
                 title (policy s2) <> title (policy s)) ->
              dict_get (title (policy s)) history' = Some e)).
Proof.
  induction schedulers as [|s ss IH]; intros h h' H Hnd; cbn [compare_loop] in H.
  - injection H as <-. split; [exact Hnd|]. split; [|split].
    + cbn. tauto.
    + reflexivity.
    + intros i s Hi. discriminate.
  - destruct (scheduler_run fuel s) as [[s' [t e]]|] eqn:E; [|discriminate].
    cbn [mbind Result_bind] in H.
    destruct (scheduler_run_title _ _ _ _ _ E) as (-> & _ & _).
    destruct (IH _ _ H (dict_set_NoDup _ _ _ Hnd)) as (Hnd' & Hin & Hget & Hlast).
    split; [exact Hnd'|]. split; [|split].
    + intros t. rewrite Hin, dict_set_In. cbn [map In]. intuition congruence.
    + intros t Ht. cbn [map In] in Ht.
      rewrite Hget by tauto. apply dict_get_set_ne. intros ->. tauto.
    + intros [|i] s1 Hi.
      * injection Hi as <-. exists s', e. split; [exact E|]. intros Hlater.
        rewrite Hget; [apply dict_get_set_eq|].
        intros Hc. apply in_map_iff in Hc as (s2 & Heq & Hs2).
        apply list_elem_of_In, list_elem_of_lookup in Hs2 as [j Hj].
        apply (Hlater (S j) s2); [lia|exact Hj|exact Heq].
      * destruct (Hlast i s1 Hi) as (s1' & e1 & Hrun & Hl).
        exists s1', e1. split; [exact Hrun|]. intros Hlater. apply Hl.
        intros j s2 Hij Hj. apply (Hlater (S j) s2); [lia|exact Hj].
Qed.

(** X24: [compare] refuses an empty list of schedulers.  When it returns,
    every scheduler of the list has run; the keys of the result are the
    titles of the schedulers, each once; and under a title stands the result
    of the last scheduler of the list that bears it, so that of two
    schedulers with one title only the later one is reported. *)
Theorem X24_compare fuel schedulers :
  (schedulers = [] ->
     compare fuel schedulers
     = Err (AssertionError "NO SCHEDULERS PROVIDED FOR COMPARE"))
  /\ forall history,
       compare fuel schedulers = Ok history ->
       schedulers <> []
       /\ List.NoDup (map fst history)
       /\ (forall t, In t (map fst history) <->
             exists s, In s schedulers /\ title (policy s) = t)
       /\ (length history <= length schedulers)%nat
       /\ forall i s, schedulers !! i = Some s ->
            exists s' e,
              scheduler_run fuel s = Ok (s', (title (policy s), e))
              /\ ((forall j s2, (i < j)%nat -> schedulers !! j = Some s2 ->
                     title (policy s2) <> title (policy s)) ->
                  dict_get (title (policy s)) history = Some e).
Proof.
  split; [intros ->; reflexivity|].
  intros history H. unfold compare in H.
  destruct schedulers as [|s0 ss]; [discriminate|].
  cbn [length Nat.ltb Nat.leb py_assert mbind Result_bind] in H.
  destruct (compare_loop_inv _ _ _ _ H (List.NoDup_nil _))
    as (Hnd & Hin & _ & Hlast).
  split; [discriminate|]. split; [exact Hnd|]. split; [|split; [|exact Hlast]].
  - intros t. rewrite Hin. split.
    + intros [[]|H1]. apply in_map_iff in H1 as (x & Hx & Hi). eauto.
    + intros (x & Hi & Hx). right. apply in_map_iff. eauto.
  - rewrite <- (length_map fst history),
            <- (length_map (fun s => title (policy s)) (s0 :: ss)).
    apply List.NoDup_incl_length; [exact Hnd|].
    intros t Ht. apply Hin in Ht as [[]|Ht]. exact Ht.
Qed.

End Compare.

Section Titles.

Import Simulator.

Lemma append_inj_r (a b : string) c :
  (a ++ String c "")%string = (b ++ String c "")%string -> a = b.
Proof.
  revert b. induction a as [|x a IH]; intros [|y b] H; cbn [String.append] in H.
  - reflexivity.
  - injection H as _ H. destruct b; discriminate.
  - injection H as _ H. destruct a; discriminate.
  - injection H as -> H. f_equal. apply IH, H.
Qed.

Lemma to_int_nonnil z :
  Z.to_int z <> Decimal.Pos Decimal.Nil /\ Z.to_int z <> Decimal.Neg Decimal.Nil.
Proof.
  split; intros H; pose proof (DecimalZ.of_to z) as E; rewrite H in E;
    cbn in E; subst z; discriminate H.
Qed.

Lemma string_of_Z_inj a b : string_of_Z a = string_of_Z b -> a = b.
Proof.
  unfold string_of_Z. intros H.
  apply (f_equal NilZero.int_of_string) in H.
  destruct (to_int_nonnil a), (to_int_nonnil b).
  rewrite !NilZero.isi in H by assumption.
  injection H as H. apply (f_equal Z.of_int) in H.
  rewrite !DecimalZ.of_to in H. exact H.
Qed.

(** X26: two schedulers bear the same title exactly when they are of the
    same class and, for Round-Robin, have the same time slice. *)
Theorem X26_title_injective p q : title p = title q <-> p = q.
Proof.
  split; [|intros ->; reflexivity].
  destruct p as [| |a|], q as [| |b|]; cbn [title String.append]; intros H;
    try reflexivity; try discriminate.
  injection H as H. apply append_inj_r, string_of_Z_inj in H. congruence.
Qed.

End Titles.

Section CompareReturns.

Import Scheduler Simulator.




End CompareReturns.

Lemma X24_compare_witness :
  exists s1 s2 history,
    fresh FIFO scenario = Ok s1 /\ fresh (RoundRobin 2) scenario = Ok s2
    /\ Simulator.compare 16 [s1; s2; s1] = Ok history
    /\ (length history <= 3)%nat.
Proof.
  destruct (fresh FIFO scenario) as [s1|] eqn:E1; [|discriminate].
  destruct (fresh (RoundRobin 2) scenario) as [s2|] eqn:E2; [|discriminate].
  destruct (Simulator.compare 16 [s1; s2; s1]) as [history|] eqn:E.
  - exists s1, s2, history. do 2 (split; [reflexivity|]). split; [exact E|].
    destruct (proj2 (X24_compare 16 [s1; s2; s1]) history E)
      as (_ & _ & _ & Hlen & _).
    exact Hlen.
  - vm_compute in E1, E2. injection E1 as <-. injection E2 as <-.
    vm_compute in E. discriminate.
Defined.


(** * Processes that need no time *)
Section ZeroLength.

Import Scheduler.

Variables (pol : Policy) (input : list Spec).
Hypothesis Hpol : pol = FIFO \/ pol = SJF.

Local Notation ex := (ex_time_of input).

Lemma stall_done s :
  done_processes (base_get_next_process s) = done_processes s.
Proof.
  destruct (base_get_next_process_cases s)
    as [(_ & w & ws & _ & ->)|[_ ->]]; reflexivity.
Qed.

(** A step of a FIFO or SJF scheduler finishes the selected process when it
    needs time, and fails in [run] when it needs none. *)
Lemma run_to_completion_step s :
  WF pol input s -> is_done s = false ->
  exists c rest,
    runnable (base_get_next_process s) = c :: rest
    /\ (0 < ex c ->
        exists s', step s = Ok s' /\ WF pol input s'
                   /\ done_processes s' = done_processes s ++ [c])
    /\ (ex c <= 0 ->
        step s = Err (AssertionError "Process running_time must be > 0")).
Proof.
  intros Hwf Hnd.
  pose proof (stall_WF pol input s Hwf) as Hwf0.
  destruct (not_done_selects s Hnd) as (c & rest & Hrun).
  exists c, rest. split; [exact Hrun|].
  destruct (wf_static _ _ _ _ Hwf0 c) as [_ Hex]. fold (ex c) in Hex.
  split.
  - intros Hpos.
    assert (Hq : quantum pol c (selected c rest (base_get_next_process s)) = ex c).
    { unfold quantum. rewrite heap_selected.
      destruct Hpol as [-> | ->]; exact Hex. }
    assert (Hz : Process.processed_time (heap (base_get_next_process s) c) = 0).
    { pose proof (wf_fresh _ _ _ _ Hwf0) as Hf. rewrite Hrun in Hf.
      destruct Hpol as [-> | ->]; apply Forall_cons in Hf as [Hf _]; exact Hf. }
    eexists. split; [|split].
    + apply (step_ok pol input s c rest Hwf Hrun).
      * rewrite Hq. exact Hpos.
      * rewrite ran_state_step_time_ran, heap_selected, Hq.
        unfold Process.time_left. rewrite Hz, Hex. lia.
    + eapply step_WF; [exact Hwf|].
      apply (step_ok pol input s c rest Hwf Hrun).
      * rewrite Hq. exact Hpos.
      * rewrite ran_state_step_time_ran, heap_selected, Hq.
        unfold Process.time_left. rewrite Hz, Hex. lia.
    + rewrite step_end_done.
      change (done_processes (ran_state c _ _))
        with (done_processes (base_get_next_process s)).
      rewrite stall_done. destruct Hpol as [-> | ->]; reflexivity.
  - intros Hneg. rewrite step_unfold.
    assert (Hg : get_next_process s
                 = Ok (c, set_runnable (base_get_next_process s) rest)).
    { apply get_next_process_inv. eauto. }
    rewrite Hg, (wf_policy _ _ _ _ Hwf).
    destruct Hpol as [-> | ->]; rewrite run_curr_err; try reflexivity;
      cbn [set_runnable heap]; rewrite Hex; exact Hneg.
Qed.

Lemma run_loop_zero_length n : forall s r,
  WF pol input s ->
  (length (runnable s ++ waiting s) <= n)%nat ->
  r ∈ runnable s ++ waiting s ->
  ex r <= 0 ->
  run_loop n s = Err (AssertionError "Process running_time must be > 0").
Proof.
  induction n as [|n IH]; intros s r Hwf Hlen Hr Hex.
  - destruct (runnable s ++ waiting s); [inversion Hr|cbn in Hlen; lia].
  - cbn [run_loop]. destruct (is_done s) eqn:Hd.
    { apply is_done_true in Hd as [H1 H2]. rewrite H1, H2 in Hr. inversion Hr. }
    destruct (run_to_completion_step s Hwf Hd) as (c & rest & Hrun & Hok & Herr).
    destruct (Z_lt_le_dec 0 (ex c)) as [Hpos|Hneg].
    2:{ rewrite (Herr Hneg). reflexivity. }
    destruct (Hok Hpos) as (s' & -> & Hwf' & Hdone). cbn [mbind Result_bind].
    pose proof (wf_queues _ _ _ _ Hwf) as Hp. cbn [app] in Hp.
    pose proof (wf_queues _ _ _ _ Hwf') as Hp'. cbn [app] in Hp'.
    rewrite Hdone in Hp'.
    pose proof (wfx_NoDup _ _ _ _ Hwf) as Hndp. cbn [app] in Hndp.
    rewrite (assoc_L (++)) in Hp, Hp', Hndp.
    apply (IH s' r Hwf').
    + apply Permutation_length in Hp, Hp'.
      rewrite !length_app, length_seq in Hp, Hp'. cbn [length] in Hp'.
      rewrite length_app in Hp'. cbn [length] in Hp'.
      rewrite length_app in Hlen |- *. lia.
    + assert (Hin : r ∈ (runnable s' ++ waiting s') ++ done_processes s ++ [c]).
      { rewrite Hp', <- Hp. apply elem_of_app. left. exact Hr. }
      apply elem_of_app in Hin as [Hin|Hin]; [exact Hin|exfalso].
      apply elem_of_app in Hin as [Hin|Hin].
      * apply NoDup_app in Hndp as (_ & Hdisj & _). exact (Hdisj r Hr Hin).
      * apply list_elem_of_singleton in Hin as ->. lia.
    + exact Hex.
Qed.

(** X27: a FIFO or SJF scheduler cannot serve a process that needs no time.
    When some process of the input has an execution time that is not
    positive, [run()] does not return: after at most as many steps as there
    are processes, a step selects such a process and the call of
    [Process.run] with that execution time fails on its assertion. *)
Theorem X27_zero_length (s : Scheduler.t) (d : Spec) (fuel : nat) :
  fresh pol input = Ok s ->
  In d input -> snd (fst d) <= 0 ->
  (length input <= fuel)%nat ->
  run fuel s = Err (AssertionError "Process running_time must be > 0").
Proof.
  intros Hinit Hd Hex Hfuel.
  pose proof (init_WF _ _ _ Hinit) as Hwf.
  pose proof (wf_queues _ _ _ _ Hwf) as Hp. cbn [app] in Hp.
  assert (Hdone : done_processes s = []).
  { apply init_inv in Hinit as [_ ->]. reflexivity. }
  rewrite Hdone, app_nil_r in Hp.
  apply (In_nth _ _ ("", 0, 0)) in Hd as (r & Hr & Hnth).
  unfold run.
  rewrite (run_loop_zero_length fuel s r Hwf); [reflexivity| | |].
  - apply Permutation_length in Hp. rewrite length_seq in Hp.
    rewrite Hp. exact Hfuel.
  - rewrite Hp. apply elem_of_seq. cbn. split; [lia|exact Hr].
  - unfold ex_time_of, heap_of_list.
    change (Process.init "" 0 0) with (process_of_spec ("", 0, 0)).
    rewrite map_nth, process_of_spec_ex_time.
    replace (nth r input ("", 0, 0)) with d by (symmetry; exact Hnth).
    exact Hex.
Qed.

End ZeroLength.

Lemma X27_zero_length_witness :
  exists s,
    fresh FIFO [("A", 2, 0); ("B", 0, 0)] = Ok s
    /\ Scheduler.run 2 s
       = Err (AssertionError "Process running_time must be > 0").
Proof.
  destruct (fresh FIFO [("A", 2, 0); ("B", 0, 0)]) as [s|] eqn:E; [|discriminate].
  exists s. split; [reflexivity|].
  apply (X27_zero_length FIFO [("A", 2, 0); ("B", 0, 0)] (or_introl eq_refl)
           s ("B", 0, 0) 2 E).
  - right. left. reflexivity.
  - cbn. lia.
  - cbn. lia.
Defined.

(** * No process at all *)
Section EmptyInput.

Import Scheduler Simulator.

Lemma compare_loop_fails fuel e schedulers1 : forall history s schedulers2,
  Forall (fun s1 => exists r, scheduler_run fuel s1 = Ok r) schedulers1 ->
  scheduler_run fuel s = Err e ->
  compare_loop fuel (schedulers1 ++ s :: schedulers2) history = Err e.
Proof.
  induction schedulers1 as [|s1 ss IH]; intros h s ss2 Hok Herr;
    cbn [app compare_loop].
  - rewrite Herr. reflexivity.
  - apply Forall_cons in Hok as [[[s1' [t e1]] ->] Hok].
    cbn [mbind Result_bind]. apply IH; assumption.
Qed.

(** X28: a scheduler constructed from no process is done at once, and
    [run()] fails on the division by the number of finished processes,
    whatever the class; [compare] fails in the same way at the first such
    scheduler of its list, when the schedulers before it have returned. *)
Theorem X28_empty_input pol s fuel :
  fresh pol [] = Ok s ->
  is_done s = true
  /\ run fuel s = Err ZeroDivisionError
  /\ forall schedulers1 schedulers2,
       Forall (fun s1 => exists r, scheduler_run fuel s1 = Ok r) schedulers1 ->
       compare fuel (schedulers1 ++ s :: schedulers2) = Err ZeroDivisionError.
Proof.
  intros Hinit. apply init_inv in Hinit as [_ ->].
  cbn [length seq filter list_filter list_sort foldr].
  set (s := mk pol _ _ _ _ _ _ _ _).
  assert (Hq : runnable s = [] /\ waiting s = []).
  { subst s. cbn [runnable waiting]. split; [destruct pol|]; reflexivity. }
  assert (Hd : is_done s = true) by (apply is_done_true, Hq).
  assert (Hr : run fuel s = Err ZeroDivisionError).
  { unfold run. destruct fuel; cbn [run_loop]; rewrite Hd; reflexivity. }
  split; [exact Hd|]. split; [exact Hr|].
  intros ss1 ss2 Hok. unfold compare.
  replace (0 <? length (ss1 ++ s :: ss2))%nat with true.
  2:{ symmetry. apply Nat.ltb_lt. rewrite length_app. cbn [length]. lia. }
  cbn [py_assert mbind Result_bind].
  apply compare_loop_fails; [exact Hok|].
  unfold scheduler_run. rewrite Hr. reflexivity.
Qed.

End EmptyInput.

Lemma X28_empty_input_witness :
  exists s,
    fresh SRTF [] = Ok s
    /\ Scheduler.run 5 s = Err ZeroDivisionError.
Proof.
  destruct (fresh SRTF []) as [s|] eqn:E; [|discriminate].
  exists s. split; [reflexivity|].
  apply (X28_empty_input SRTF s 5 E).
Defined.
